(** * A shallow embedding of goost's [LinkedList] (core/types/list.cpp)

    The C++ code manipulates heap-allocated [ListElement] and [ListData]
    objects through raw pointers.  The embedding keeps that shape: a heap
    made of two finite maps, pointers as optional addresses ([None] is
    [nullptr]), and every method as a computation in a small state monad
    whose outcome is a result, a fault (a null or dangling dereference,
    which is undefined behaviour in C++) or a timeout (a loop that ran
    out of fuel). *)

From stdpp Require Import gmap list.

(** A pointer: [None] is [nullptr], [Some a] the object at address [a]. *)
Abbreviation ptr := (option positive).

(** Pointer of the first cell of a segment, [n] when the segment is empty. *)
Definition hd_ptr {A} (l : list (positive * A)) (n : ptr) : ptr :=
  match l with
  | [] => n
  | x :: _ => Some (fst x)
  end.

(** Pointer of the last cell of a segment, [p] when the segment is empty. *)
Fixpoint last_ptr {A} (l : list (positive * A)) (p : ptr) : ptr :=
  match l with
  | [] => p
  | x :: l' => last_ptr l' (Some (fst x))
  end.

Section linked_list.

Context {Variant : Type}.

(** [Variant::operator==]; nothing is assumed about it (it need not even be
    reflexive). *)
Variable variant_eq : Variant → Variant → bool.

(** ** Data model *)

(** [ListElement]: the payload, both links and the back-reference to the
    owning [ListData]. *)
Record ListElement := mkElement {
  value : Variant;
  next_ptr : ptr;
  prev_ptr : ptr;
  data : ptr
}.

(** [ListData]: the shared block of one list.
    Modelled from the spec: the declaration of [size_cache] lives in list.h,
    which is not part of the sources at hand; the spec calls it a cached
    element count, so it is an integer here. *)
Record ListData := mkData {
  first : ptr;
  last : ptr;
  size_cache : Z
}.

(** The heap: live [ListElement]s and live [ListData] blocks. *)
Record Heap := mkHeap {
  nodes : gmap positive ListElement;
  stores : gmap positive ListData
}.

(** [LinkedList]: its only field is the pointer to its [ListData]. *)
Record LinkedList := mkList { _data : ptr }.

(** The allocator behind [memnew]: any function that returns an address
    which is not live. *)
Variable alloc_node : gmap positive ListElement → positive.
Variable alloc_store : gmap positive ListData → positive.

(** ** The monad *)

Inductive outcome (A : Type) : Type :=
  | Ret (a : A) (h : Heap)
  | Fault
  | Timeout.
Global Arguments Ret {A} a h.
Global Arguments Fault {A}.
Global Arguments Timeout {A}.

Definition M (A : Type) : Type := Heap → outcome A.

Definition ret {A} (a : A) : M A := λ h, Ret a h.

Definition bind {A B} (m : M A) (k : A → M B) : M B := λ h,
  match m h with
  | Ret a h' => k a h'
  | Fault => Fault
  | Timeout => Timeout
  end.

Definition fault {A} : M A := λ _, Fault.
Definition timeout {A} : M A := λ _, Timeout.

Local Notation "'do' x <- m ; k" := (bind m (λ x, k))
  (at level 10, x name, m at level 100, k at level 200,
   format "'[v' 'do'  x  <-  m ; '/' k ']'").
Local Notation "m ;; k" := (bind m (λ _, k))
  (at level 100, k at level 200, right associativity,
   format "'[v' m  ;; '/' k ']'").

(** ** Memory accesses *)

(** [p->f] on a [ListElement*]. *)
Definition get {A} (f : ListElement → A) (p : ptr) : M A := λ h,
  match p with
  | Some a =>
      match nodes h !! a with
      | Some e => Ret (f e) h
      | None => Fault
      end
  | None => Fault
  end.

(** [p->... = ...] on a [ListElement*]: [upd] rewrites one field. *)
Definition put (upd : ListElement → ListElement) (p : ptr) : M () := λ h,
  match p with
  | Some a =>
      match nodes h !! a with
      | Some e => Ret () (mkHeap (<[a := upd e]> (nodes h)) (stores h))
      | None => Fault
      end
  | None => Fault
  end.

Definition set_next_ptr (p q : ptr) : M () :=
  put (λ e, mkElement (value e) q (prev_ptr e) (data e)) p.
Definition set_prev_ptr (p q : ptr) : M () :=
  put (λ e, mkElement (value e) (next_ptr e) q (data e)) p.

(** [d->f] on a [ListData*]. *)
Definition dget {A} (f : ListData → A) (d : ptr) : M A := λ h,
  match d with
  | Some a =>
      match stores h !! a with
      | Some s => Ret (f s) h
      | None => Fault
      end
  | None => Fault
  end.

Definition dput (upd : ListData → ListData) (d : ptr) : M () := λ h,
  match d with
  | Some a =>
      match stores h !! a with
      | Some s => Ret () (mkHeap (nodes h) (<[a := upd s]> (stores h)))
      | None => Fault
      end
  | None => Fault
  end.

Definition set_first (d q : ptr) : M () :=
  dput (λ s, mkData q (last s) (size_cache s)) d.
Definition set_last (d q : ptr) : M () :=
  dput (λ s, mkData (first s) q (size_cache s)) d.
Definition set_size_cache (d : ptr) (n : Z) : M () :=
  dput (λ s, mkData (first s) (last s) n) d.

(** [memnew(ListElement)] followed by [n->value = value]: the three
    pointer fields are assigned by the caller right after, they start as
    [nullptr] here. *)
Definition new_node (v : Variant) : M ptr := λ h,
  let a := alloc_node (nodes h) in
  Ret (Some a) (mkHeap (<[a := mkElement v None None None]> (nodes h)) (stores h)).

(** [memnew_allocator(ListData, DefaultAllocator)]; the caller zeroes the
    three fields right after. *)
Definition new_store : M ptr := λ h,
  let a := alloc_store (stores h) in
  Ret (Some a) (mkHeap (nodes h) (<[a := mkData None None 0]> (stores h))).

(** [memdelete(p)] on a [ListElement*]. *)
Definition memdelete (p : ptr) : M () := λ h,
  match p with
  | Some a =>
      match nodes h !! a with
      | Some _ => Ret () (mkHeap (delete a (nodes h)) (stores h))
      | None => Fault
      end
  | None => Fault
  end.

(** [memdelete_allocator<ListData, DefaultAllocator>(d)]. *)
Definition memdelete_store (d : ptr) : M () := λ h,
  match d with
  | Some a =>
      match stores h !! a with
      | Some _ => Ret () (mkHeap (nodes h) (delete a (stores h)))
      | None => Fault
      end
  | None => Fault
  end.

(** [if (c) { body }] *)
Definition when (c : bool) (body : M ()) : M () := if c then body else ret ().

(** [p] is not [nullptr]. *)
Definition nonnull (p : ptr) : bool :=
  match p with
  | Some _ => true
  | None => false
  end.
(** [p == q] on pointers. *)
Definition ptr_eq (p q : ptr) : bool := bool_decide (p = q).

(** ** ListData::erase *)

Definition ListData_erase (this p_I : ptr) : M bool :=
  if negb (nonnull p_I) then ret false else
  do d <- get data p_I;
  if negb (ptr_eq d this) then ret false else
  do f <- dget first this;
  when (ptr_eq f p_I)
    (do n <- get next_ptr p_I; set_first this n);;
  do l <- dget last this;
  when (ptr_eq l p_I)
    (do p <- get prev_ptr p_I; set_last this p);;
  do p <- get prev_ptr p_I;
  when (nonnull p)
    (do n <- get next_ptr p_I; set_next_ptr p n);;
  do n <- get next_ptr p_I;
  when (nonnull n)
    (do p <- get prev_ptr p_I; set_prev_ptr n p);;
  memdelete p_I;;
  do s <- dget size_cache this;
  set_size_cache this (s - 1);;
  ret true.

(** ** LinkedList *)

(** The lazy allocation at the head of both push functions. *)
Definition ensure_data (this : LinkedList) : M LinkedList :=
  if negb (nonnull (_data this)) then
    do d <- new_store;
    set_first d None;;
    set_last d None;;
    set_size_cache d 0;;
    ret (mkList d)
  else ret this.

Definition push_back (this : LinkedList) (v : Variant) : M (LinkedList * ptr) :=
  do this <- ensure_data this;
  do n <- new_node v;
  do l <- dget last (_data this);
  set_prev_ptr n l;;
  set_next_ptr n None;;
  put (λ e, mkElement (value e) (next_ptr e) (prev_ptr e) (_data this)) n;;
  do l <- dget last (_data this);
  when (nonnull l) (set_next_ptr l n);;
  set_last (_data this) n;;
  do f <- dget first (_data this);
  when (negb (nonnull f)) (set_first (_data this) n);;
  do s <- dget size_cache (_data this);
  set_size_cache (_data this) (s + 1);;
  ret (this, n).

Definition push_front (this : LinkedList) (v : Variant) : M (LinkedList * ptr) :=
  do this <- ensure_data this;
  do n <- new_node v;
  set_prev_ptr n None;;
  do f <- dget first (_data this);
  set_next_ptr n f;;
  put (λ e, mkElement (value e) (next_ptr e) (prev_ptr e) (_data this)) n;;
  do f <- dget first (_data this);
  when (nonnull f) (set_prev_ptr f n);;
  set_first (_data this) n;;
  do l <- dget last (_data this);
  when (negb (nonnull l)) (set_last (_data this) n);;
  do s <- dget size_cache (_data this);
  set_size_cache (_data this) (s + 1);;
  ret (this, n).

Definition remove (this : LinkedList) (p_I : ptr) : M (LinkedList * bool) :=
  if nonnull (_data this) then
    do r <- ListData_erase (_data this) p_I;
    do s <- dget size_cache (_data this);
    if bool_decide (s = 0%Z) then
      memdelete_store (_data this);;
      ret (mkList None, r)
    else ret (this, r)
  else ret (this, false).

Definition pop_back (this : LinkedList) : M LinkedList :=
  if nonnull (_data this) then
    do l <- dget last (_data this);
    if nonnull l then
      do r <- remove this l; ret (fst r)
    else ret this
  else ret this.

Definition pop_front (this : LinkedList) : M LinkedList :=
  if nonnull (_data this) then
    do f <- dget first (_data this);
    if nonnull f then
      do r <- remove this f; ret (fst r)
    else ret this
  else ret this.

(** Modelled from the spec: [front], [back], [size] and [empty] are inline
    members of list.h, which is not part of the sources at hand; they read
    the head, the tail and the cached count of the storage, and answer
    for an empty handle without touching memory. *)
Definition front (this : LinkedList) : M ptr :=
  if nonnull (_data this) then dget first (_data this) else ret None.
Definition back (this : LinkedList) : M ptr :=
  if nonnull (_data this) then dget last (_data this) else ret None.
Definition size (this : LinkedList) : M Z :=
  if nonnull (_data this) then dget size_cache (_data this) else ret 0%Z.
Definition empty (this : LinkedList) : M bool :=
  if nonnull (_data this) then
    do s <- dget size_cache (_data this); ret (bool_decide (s = 0%Z))
  else ret true.

(** Modelled from the spec: [ListElement::next], [ListElement::prev] and
    [ListElement::get_value] (list.h) return the adjacent element, or none
    at the boundary, and the payload. *)
Definition next (p : ptr) : M ptr := get next_ptr p.
Definition prev (p : ptr) : M ptr := get prev_ptr p.
Definition get_value (p : ptr) : M Variant := get value p.

(** The [while (it)] loop of [find]; [fuel] bounds the number of
    iterations. *)
Fixpoint find_loop (fuel : nat) (p_value : Variant) (it : ptr) : M ptr :=
  if nonnull it then
    match fuel with
    | O => timeout
    | S fuel =>
        do v <- get value it;
        if variant_eq v p_value then ret it
        else do n <- next it; find_loop fuel p_value n
    end
  else ret None.

Definition find (fuel : nat) (this : LinkedList) (p_value : Variant) : M ptr :=
  do it <- front this;
  find_loop fuel p_value it.

Definition erase (fuel : nat) (this : LinkedList) (p_value : Variant)
  : M (LinkedList * bool) :=
  do I <- find fuel this p_value;
  remove this I.

Definition move_to_back (this : LinkedList) (p_I : ptr) : M () :=
  do d <- get data p_I;
  if negb (ptr_eq d (_data this)) then ret () else
  do n <- get next_ptr p_I;
  if negb (nonnull n) then ret () else
  do f <- dget first (_data this);
  when (ptr_eq f p_I)
    (do n <- get next_ptr p_I; set_first (_data this) n);;
  do l <- dget last (_data this);
  when (ptr_eq l p_I)
    (do p <- get prev_ptr p_I; set_last (_data this) p);;
  do p <- get prev_ptr p_I;
  when (nonnull p)
    (do n <- get next_ptr p_I; set_next_ptr p n);;
  do n <- get next_ptr p_I;
  do p <- get prev_ptr p_I;
  set_prev_ptr n p;;
  do l <- dget last (_data this);
  set_next_ptr l p_I;;
  do l <- dget last (_data this);
  set_prev_ptr p_I l;;
  set_next_ptr p_I None;;
  set_last (_data this) p_I.

Definition move_to_front (this : LinkedList) (p_I : ptr) : M () :=
  do d <- get data p_I;
  if negb (ptr_eq d (_data this)) then ret () else
  do p <- get prev_ptr p_I;
  if negb (nonnull p) then ret () else
  do f <- dget first (_data this);
  when (ptr_eq f p_I)
    (do n <- get next_ptr p_I; set_first (_data this) n);;
  do l <- dget last (_data this);
  when (ptr_eq l p_I)
    (do p <- get prev_ptr p_I; set_last (_data this) p);;
  do p <- get prev_ptr p_I;
  do n <- get next_ptr p_I;
  set_next_ptr p n;;
  do n <- get next_ptr p_I;
  when (nonnull n)
    (do p <- get prev_ptr p_I; set_prev_ptr n p);;
  do f <- dget first (_data this);
  set_prev_ptr f p_I;;
  do f <- dget first (_data this);
  set_next_ptr p_I f;;
  set_prev_ptr p_I None;;
  set_first (_data this) p_I.

Definition move_before (this : LinkedList) (p_A p_B : ptr) : M () :=
  do p <- get prev_ptr p_A;
  (if nonnull p then
     do n <- get next_ptr p_A; set_next_ptr p n
   else
     do n <- get next_ptr p_A; set_first (_data this) n);;
  do n <- get next_ptr p_A;
  (if nonnull n then
     do p <- get prev_ptr p_A; set_prev_ptr n p
   else
     do p <- get prev_ptr p_A; set_last (_data this) p);;
  set_next_ptr p_A p_B;;
  if negb (nonnull p_B) then
    do l <- dget last (_data this);
    set_prev_ptr p_A l;;
    set_last (_data this) p_A
  else
  do q <- get prev_ptr p_B;
  set_prev_ptr p_A q;;
  do q <- get prev_ptr p_B;
  (if nonnull q then set_next_ptr q p_A
   else set_first (_data this) p_A);;
  set_prev_ptr p_B p_A.

(** [while (front()) remove(front())]; [fuel] bounds the number of
    iterations. *)
Fixpoint clear (fuel : nat) (this : LinkedList) : M LinkedList :=
  do f <- front this;
  if nonnull f then
    match fuel with
    | O => timeout
    | S fuel =>
        do f <- front this;
        do r <- remove this f;
        clear fuel (fst r)
    end
  else ret this.

(** [LinkedList::~LinkedList]: [clear()], then the storage block, if one
    is left, is released unless its count is not zero
    ([ERR_FAIL_COND(_data->size_cache)]). *)
Definition destructor (fuel : nat) (this : LinkedList) : M LinkedList :=
  do this <- clear fuel this;
  if nonnull (_data this) then
    do s <- dget size_cache (_data this);
    if negb (bool_decide (s = 0%Z)) then ret this
    else
      memdelete_store (_data this);;
      ret this
  else ret this.

(** ** Client loops *)

(** [for (it = start; it; it = step(it)) visit(it)]: the addresses and
    payloads met, in order. *)
Fixpoint walk (step : ptr → M ptr) (fuel : nat) (it : ptr)
  : M (list (positive * Variant)) :=
  match it with
  | None => ret []
  | Some a =>
      match fuel with
      | O => timeout
      | S fuel =>
          do v <- get_value it;
          do n <- step it;
          do r <- walk step fuel n;
          ret ((a, v) :: r)
      end
  end.

(** Front to back: from [front()] along [next()]. *)
Definition traverse_forward (fuel : nat) (this : LinkedList)
  : M (list (positive * Variant)) :=
  do it <- front this; walk next fuel it.

(** Back to front: from [back()] along [prev()]. *)
Definition traverse_backward (fuel : nat) (this : LinkedList)
  : M (list (positive * Variant)) :=
  do it <- back this; walk prev fuel it.

(** [for (v : vs) list.push_back(v)]; returns the handles in push order. *)
Fixpoint push_back_all (this : LinkedList) (vs : list Variant)
  : M (LinkedList * list ptr) :=
  match vs with
  | [] => ret (this, [])
  | v :: vs =>
      do r <- push_back this v;
      do r' <- push_back_all (fst r) vs;
      ret (fst r', snd r :: snd r')
  end.

(** ** Representation predicates *)

(** [dll E d p l n]: the cells of [l] (address and payload) are live in [E],
    all carry the back-reference [d], and are chained in that order, the
    first one with predecessor [p], the last one with successor [n]. *)
Fixpoint dll (E : gmap positive ListElement) (d p : ptr)
    (l : list (positive * Variant)) (n : ptr) : Prop :=
  match l with
  | [] => True
  | x :: l' =>
      E !! x.1 = Some (mkElement x.2 (hd_ptr l' n) p d) ∧ dll E d (Some x.1) l' n
  end.

(** The storage block at address [d] holds exactly the chain [l]. *)
Definition storage_repr (h : Heap) (d : positive)
    (l : list (positive * Variant)) : Prop :=
  stores h !! d = Some (mkData (hd_ptr l None) (last_ptr l None) (Z.of_nat (length l)))
  ∧ NoDup l.*1
  ∧ dll (nodes h) (Some d) None l None.

(** The list handle [this] represents [l]: no storage when [l] is empty,
    a storage block holding [l] otherwise. *)
Definition repr (h : Heap) (this : LinkedList)
    (l : list (positive * Variant)) : Prop :=
  match _data this with
  | None => l = []
  | Some d => l ≠ [] ∧ storage_repr h d l
  end.

(** ** The storage invariants of the specification *)

(** Head, tail and count are empty together. *)
Definition ends_inv (s : ListData) : Prop :=
  (first s = None ↔ last s = None) ∧ (last s = None ↔ size_cache s = 0%Z).

(** Every link of a node of [chain] is answered by the opposite link of
    the node it points to. *)
Definition links_inv (E : gmap positive ListElement) (chain : list positive)
  : Prop :=
  ∀ a e, a ∈ chain → E !! a = Some e →
    (∀ m, next_ptr e = Some m → ∃ e', E !! m = Some e' ∧ prev_ptr e' = Some a)
    ∧ (∀ m, prev_ptr e = Some m → ∃ e', E !! m = Some e' ∧ next_ptr e' = Some a).

(** The count is the number of nodes met from the head along [next] and
    from the tail along [prev]. *)
Definition count_inv (h : Heap) (s : ListData)
    (fwd bwd : list (positive * Variant)) : Prop :=
  (∃ fuel, walk next fuel (first s) h = Ret fwd h)
  ∧ (∃ fuel, walk prev fuel (last s) h = Ret bwd h)
  ∧ size_cache s = Z.of_nat (length fwd)
  ∧ size_cache s = Z.of_nat (length bwd).

Definition storage_inv (h : Heap) (d : positive) : Prop :=
  ∃ s fwd bwd,
    stores h !! d = Some s
    ∧ ends_inv s
    ∧ count_inv h s fwd bwd
    ∧ links_inv (nodes h) (fwd.*1 ++ bwd.*1).

(** A handle without storage is the empty list; otherwise its storage
    obeys the invariants. *)
Definition list_inv (h : Heap) (this : LinkedList) : Prop :=
  match _data this with
  | None => True
  | Some d => storage_inv h d
  end.

(** ** Memory safety *)

(** [p] is null or one of the addresses of [A]. *)
Definition ptr_in (A : list positive) (p : ptr) : Prop :=
  match p with
  | None => True
  | Some a => a ∈ A
  end.

(** Every node of [A] is live and links only to nodes of [A]; the storage
    block [d] is live, its ends are in [A] and its count is [n]. *)
Definition closed (A : list positive) (d : positive) (n : Z) (h : Heap) : Prop :=
  (∀ a, a ∈ A →
     ∃ e, nodes h !! a = Some e ∧ ptr_in A (next_ptr e) ∧ ptr_in A (prev_ptr e))
  ∧ ∃ s, stores h !! d = Some s
      ∧ ptr_in A (first s) ∧ ptr_in A (last s) ∧ size_cache s = n.

(** From every heap that satisfies [I], [m] returns (no fault, no timeout)
    a result that satisfies [Q], in a heap that satisfies [I] again. *)
Definition safe {A} (I : Heap → Prop) (m : M A) (Q : A → Prop) : Prop :=
  ∀ h, I h → ∃ a h', m h = Ret a h' ∧ I h' ∧ Q a.

End linked_list.

(** ** A concrete instance: integer payloads, first-free-address allocator *)

Definition fresh_addr {A} (m : gmap positive A) : positive := fresh (dom m).

Definition empty_heap : @Heap Z := mkHeap ∅ ∅.

(** The handle of a freshly constructed [LinkedList]. *)
Definition new_list : LinkedList := mkList None.

Definition zpush_back := @push_back Z fresh_addr fresh_addr.
Definition zpush_front := @push_front Z fresh_addr fresh_addr.
Definition zpush_back_all := @push_back_all Z fresh_addr fresh_addr.
Definition zfind := @find Z Z.eqb.
Definition zerase := @erase Z Z.eqb.

(** What a run returns, when it returns. *)
Definition result {V A} (o : @outcome V A) : option A :=
  match o with
  | Ret a _ => Some a
  | _ => None
  end.

(** The list [10; 20; 30]: the handle and the heap that three calls of
    [push_back] on a new list leave, starting from the empty heap. *)
Definition abc : list (positive * Z) :=
  [(1%positive, 10%Z); (2%positive, 20%Z); (3%positive, 30%Z)].

Definition abc_list : LinkedList := mkList (Some 1%positive).

Definition abc_heap : @Heap Z :=
  mkHeap
    (list_to_map
       [(1%positive, mkElement 10%Z (Some 2%positive) None (Some 1%positive));
        (2%positive, mkElement 20%Z (Some 3%positive) (Some 1%positive) (Some 1%positive));
        (3%positive, mkElement 30%Z None (Some 2%positive) (Some 1%positive))])
    (list_to_map
       [(1%positive, mkData (Some 1%positive) (Some 3%positive) 3%Z)]).

(** Two one-element lists, [10] and [20], side by side in one heap. *)
Definition list_one : LinkedList := mkList (Some 1%positive).
Definition list_two : LinkedList := mkList (Some 2%positive).

Definition one_heap : @Heap Z :=
  mkHeap
    (list_to_map [(1%positive, mkElement 10%Z None None (Some 1%positive))])
    (list_to_map [(1%positive, mkData (Some 1%positive) (Some 1%positive) 1%Z)]).

Definition two_heap : @Heap Z :=
  mkHeap
    (list_to_map
       [(1%positive, mkElement 10%Z None None (Some 1%positive));
        (2%positive, mkElement 20%Z None None (Some 2%positive))])
    (list_to_map
       [(1%positive, mkData (Some 1%positive) (Some 1%positive) 1%Z);
        (2%positive, mkData (Some 2%positive) (Some 2%positive) 1%Z)]).

(** ** The scripting wrappers of goost_geometry_2d_bind.cpp *)

Section geometry_bind.

(** [Src] is the element type of the vector the geometry library
    returns ([Vector<Point2>] or [Point2i]), [Dst] the element type of
    the container handed to the script ([Variant] or [Point2]), and
    [convert] the implicit conversion that [push_back] applies. *)
Context {Src Dst : Type}.
Variable convert : Src → Dst.

(** [for (int i = 0; i < v.size(); ++i) ret.push_back(v[i]);] where
    [fuel] bounds the number of iterations; [None] is the crash of
    [Vector::operator[]] on an index out of range, or the loop running
    out of fuel. *)
Fixpoint copy_loop (fuel i : nat) (v : list Src) (ret : list Dst)
  : option (list Dst) :=
  if bool_decide (i < length v) then
    match fuel with
    | O => None
    | S fuel =>
        match v !! i with
        | Some e => copy_loop fuel (S i) v (ret ++ [convert e])
        | None => None
        end
    end
  else Some ret.

(** The body shared by [merge_polygons], [clip_polygons],
    [intersect_polygons], [exclude_polygons], [clip_polyline_with_polygon],
    [intersect_polyline_with_polygon], [inflate_polygon],
    [deflate_polygon], [deflate_polyline], [triangulate_polygon],
    [decompose_polygon], [pixel_line], [pixel_circle],
    [polyline_to_pixels] and [polygon_to_pixels]: call the library, then
    copy its result element by element into a new container. *)
Definition bind_copy {Args : Type} (fuel : nat) (library : Args → list Src)
    (args : Args) : option (list Dst) :=
  let v := library args in
  copy_loop fuel 0 v [].

End geometry_bind.

(** [_GoostGeometry2D::_GoostGeometry2D()]: the static [singleton] after
    the constructor ran on the object at address [this];
    [ERR_FAIL_COND_MSG(singleton != nullptr, ...)] returns before the
    assignment. *)
Definition GoostGeometry2D_ctor (this : positive) (singleton : ptr) : ptr :=
  if nonnull singleton then singleton else Some this.

(** * Proofs *)

Section proofs.

Set Default Proof Using "Type".
Set Proof Using Clear Unused.

Context {Variant : Type}.
Variable variant_eq : Variant → Variant → bool.
Variable alloc_node : gmap positive (@ListElement Variant) → positive.
Variable alloc_store : gmap positive ListData → positive.
Hypothesis alloc_node_fresh : ∀ E, E !! alloc_node E = None.
Hypothesis alloc_store_fresh : ∀ S, S !! alloc_store S = None.

Implicit Types (E : gmap positive (@ListElement Variant)).
Implicit Types (l : list (positive * Variant)) (x : positive * Variant).
Implicit Types (p n o : ptr) (d : positive).

(** ** Chains *)

Lemma hd_ptr_app l1 l2 n : hd_ptr (l1 ++ l2) n = hd_ptr l1 (hd_ptr l2 n).
Proof. by destruct l1. Qed.

Lemma last_ptr_app l1 l2 p : last_ptr (l1 ++ l2) p = last_ptr l2 (last_ptr l1 p).
Proof. revert p. induction l1 as [|x l1 IH]; intros p; simpl; [done|apply IH]. Qed.

Lemma dll_ext E E' o p l n :
  (∀ a, a ∈ l.*1 → E' !! a = E !! a) → dll E o p l n → dll E' o p l n.
Proof.
  revert p. induction l as [|x l IH]; intros p Hext; simpl; [done|].
  intros [Hx Hl]. split.
  - rewrite Hext; [done|]. rewrite fmap_cons. apply list_elem_of_here.
  - apply IH; [|done]. intros a Ha. apply Hext.
    rewrite fmap_cons. by apply list_elem_of_further.
Qed.

Lemma dll_app E o p l1 l2 n :
  dll E o p (l1 ++ l2) n ↔
  dll E o p l1 (hd_ptr l2 n) ∧ dll E o (last_ptr l1 p) l2 n.
Proof.
  revert p. induction l1 as [|x l1 IH]; intros p; simpl.
  - tauto.
  - rewrite IH, hd_ptr_app. tauto.
Qed.

Lemma dll_snoc E o p l x n :
  dll E o p (l ++ [x]) n ↔
  dll E o p l (Some x.1) ∧ E !! x.1 = Some (mkElement x.2 n (last_ptr l p) o).
Proof. rewrite dll_app. simpl. tauto. Qed.

Lemma dll_middle E o p l1 x l2 n :
  dll E o p (l1 ++ x :: l2) n ↔
  dll E o p l1 (Some x.1)
  ∧ E !! x.1 = Some (mkElement x.2 (hd_ptr l2 n) (last_ptr l1 p) o)
  ∧ dll E o (Some x.1) l2 n.
Proof. rewrite dll_app. simpl. tauto. Qed.

(** ** Symbolic execution *)

Lemma nodup_middle l1 x l2 :
  NoDup (l1 ++ x :: l2).*1 →
  (x.1 ∉ l1.*1) ∧ (x.1 ∉ l2.*1) ∧ NoDup (l1 ++ l2).*1
  ∧ (∀ a, a ∈ l1.*1 → a ∉ l2.*1).
Proof.
  rewrite !fmap_app, fmap_cons. intros H.
  apply NoDup_app in H as (H1 & H2 & H3).
  apply NoDup_cons in H3 as [H3 H4].
  split_and!.
  - intros Hin. apply (H2 _ Hin). apply list_elem_of_here.
  - done.
  - apply NoDup_app. split_and!; [done| |done].
    intros a Ha Hb. apply (H2 _ Ha). by apply list_elem_of_further.
  - intros a Ha Hb. apply (H2 _ Ha). by apply list_elem_of_further.
Qed.

Lemma snoc_case l : l = [] ∨ ∃ l' x, l = l' ++ [x].
Proof. induction l using rev_ind; [by left|right; eauto]. Qed.

Lemma bind_ret {A B} (a : A) (k : A → M B) (h : @Heap Variant) :
  bind (ret a) k h = k a h.
Proof. done. Qed.

Lemma bind_assoc {A B C} (m : M A) (f : A → M B) (g : B → M C) (h : @Heap Variant) :
  bind (bind m f) g h = bind m (λ a, bind (f a) g) h.
Proof. unfold bind. by destruct (m h). Qed.

Lemma get_eq {A} (f : ListElement → A) a e (h : @Heap Variant) :
  nodes h !! a = Some e → get f (Some a) h = Ret (f e) h.
Proof. unfold get. by intros ->. Qed.

Lemma put_eq u a e (h : @Heap Variant) :
  nodes h !! a = Some e →
  put u (Some a) h = Ret () (mkHeap (<[a := u e]> (nodes h)) (stores h)).
Proof. unfold put. by intros ->. Qed.

Lemma dget_eq {A} (f : ListData → A) a s (h : @Heap Variant) :
  stores h !! a = Some s → dget f (Some a) h = Ret (f s) h.
Proof. unfold dget. by intros ->. Qed.

Lemma dput_eq u a s (h : @Heap Variant) :
  stores h !! a = Some s →
  dput u (Some a) h = Ret () (mkHeap (nodes h) (<[a := u s]> (stores h))).
Proof. unfold dput. by intros ->. Qed.

Lemma memdelete_eq a e (h : @Heap Variant) :
  nodes h !! a = Some e →
  memdelete (Some a) h = Ret () (mkHeap (delete a (nodes h)) (stores h)).
Proof. unfold memdelete. by intros ->. Qed.

Lemma memdelete_store_eq a s (h : @Heap Variant) :
  stores h !! a = Some s →
  memdelete_store (Some a) h = Ret () (mkHeap (nodes h) (delete a (stores h))).
Proof. unfold memdelete_store. by intros ->. Qed.

Lemma bind_eq {A B} (m : M A) (k : A → M B) (h h' : @Heap Variant) a :
  m h = Ret a h' → bind m k h = k a h'.
Proof. unfold bind. by intros ->. Qed.

Ltac lk :=
  repeat first
    [ rewrite lookup_insert_eq
    | rewrite lookup_delete_eq
    | rewrite lookup_insert_ne by (simpl; congruence)
    | rewrite lookup_delete_ne by (simpl; congruence)
    | match goal with
      | H : ?m !! ?a = Some _ |- context [?m !! ?a] => rewrite H
      | H : ?m !! ?a = None |- context [?m !! ?a] => rewrite H
      end ].

Ltac pe :=
  repeat first
    [ rewrite bool_decide_eq_true_2 by (simpl; congruence)
    | rewrite bool_decide_eq_false_2 by (simpl; congruence) ].

Ltac lookup_now := cbn [nodes stores]; lk; reflexivity.

Ltac prim_eq :=
  first
    [ eapply get_eq; lookup_now
    | eapply put_eq; lookup_now
    | eapply dget_eq; lookup_now
    | eapply dput_eq; lookup_now
    | eapply memdelete_eq; lookup_now
    | eapply memdelete_store_eq; lookup_now ].

Ltac step :=
  first
    [ rewrite bind_ret
    | rewrite bind_assoc
    | erewrite bind_eq by prim_eq
    | progress
        (cbn [when nonnull negb nodes stores fst snd value next_ptr prev_ptr
              data first last size_cache _data hd_ptr last_ptr
              set_next_ptr set_prev_ptr set_first set_last set_size_cache])
    | progress (unfold ptr_eq; pe) ].

Ltac exec :=
  unfold set_next_ptr, set_prev_ptr, set_first, set_last, set_size_cache;
  repeat step; try prim_eq.

Lemma last_ptr_elem l a b :
  last_ptr l (Some a) = Some b → b = a ∨ b ∈ l.*1.
Proof.
  revert a. induction l as [|y l IH]; intros a; simpl.
  - intros [= ->]. by left.
  - intros [->|Hin]%IH; right; set_solver.
Qed.

Lemma last_ptr_ne l a b : a ≠ b → b ∉ l.*1 → last_ptr l (Some a) ≠ Some b.
Proof. intros Hne Hnin [->|Hin]%last_ptr_elem; done. Qed.

Lemma hd_ptr_ne l n b : n ≠ Some b → b ∉ l.*1 → hd_ptr l n ≠ Some b.
Proof.
  destruct l as [|y l]; simpl; [done|].
  intros _ Hnin [= <-]. set_solver.
Qed.

Ltac frame_stores :=
  let a := fresh "a" in let Ha := fresh "Ha" in
  intros a Ha;
  repeat first
    [ rewrite lookup_insert_ne by congruence
    | rewrite lookup_delete_ne by congruence ];
  done.

(** Split every [NoDup] hypothesis on addresses into membership facts. *)
Ltac nodup_facts :=
  repeat match goal with
  | H : NoDup (_ <$> (_ ++ _)) |- _ => rewrite fmap_app in H
  | H : NoDup (_ <$> (_ :: _)) |- _ => rewrite fmap_cons in H
  | H : NoDup (_ ++ _) |- _ => apply NoDup_app in H as (? & ? & ?)
  | H : NoDup (_ :: _) |- _ => apply NoDup_cons in H as [? ?]
  end.

Ltac frame_nodes :=
  let a := fresh "a" in let Ha := fresh "Ha" in
  intros a Ha;
  rewrite ?fmap_app, ?fmap_cons in Ha; cbn [fst] in Ha;
  repeat first
    [ rewrite lookup_insert_ne by set_solver
    | rewrite lookup_delete_ne by set_solver ];
  done.

Ltac same_chain := (eapply dll_ext; [|eassumption]); frame_nodes.

Lemma ListData_erase_spec h d l1 x l2 :
  storage_repr h d (l1 ++ x :: l2) →
  ∃ h', ListData_erase (Some d) (Some x.1) h = Ret true h'
    ∧ storage_repr h' d (l1 ++ l2)
    ∧ nodes h' !! x.1 = None
    ∧ (∀ a, a ∉ (l1 ++ x :: l2).*1 → nodes h' !! a = nodes h !! a)
    ∧ (∀ a, a ≠ d → stores h' !! a = stores h !! a).
Proof.
  destruct h as [E S]. unfold storage_repr. cbn [nodes stores].
  intros (HS & Hnd & Hdll).
  pose proof (nodup_middle _ _ _ Hnd) as (_ & _ & Hnd' & _).
  apply dll_middle in Hdll as (H1 & Hx & H2).
  rewrite ?length_app in *. cbn [length] in *.
  rewrite hd_ptr_app, last_ptr_app in HS. rewrite hd_ptr_app, last_ptr_app.
  unfold ListData_erase.
  destruct (snoc_case l1) as [-> | (l1' & b & ->)]; destruct l2 as [|c l2'];
    try apply dll_snoc in H1 as [H1 Hb]; try destruct H2 as [Hc H2];
    rewrite ?hd_ptr_app, ?last_ptr_app in *; cbn [hd_ptr last_ptr app] in *;
    revert Hnd'; nodup_facts; intros Hnd'.
  - exec. eexists; split; [reflexivity|]. cbn [nodes stores].
    split_and!; [lk; do 2 f_equal; lia|done|done|by lk|frame_nodes|frame_stores].
  - assert (x.1 ≠ c.1) by set_solver.
    assert (last_ptr l2' (Some c.1) ≠ Some x.1)
      by (apply last_ptr_ne; set_solver).
    exec. eexists; split; [reflexivity|]. cbn [nodes stores].
    split_and!; [lk; do 2 f_equal; lia|done| |by lk|frame_nodes|frame_stores].
    cbn [dll]. split; [by lk|same_chain].
  - assert (x.1 ≠ b.1) by set_solver.
    assert (hd_ptr l1' (Some b.1) ≠ Some x.1)
      by (apply hd_ptr_ne; [congruence|set_solver]).
    exec. eexists; split; [reflexivity|]. cbn [nodes stores].
    split_and!; [lk; do 2 f_equal; lia|done| |by lk|frame_nodes|frame_stores].
    rewrite app_nil_r. apply dll_snoc. split; [same_chain|by lk].
  - assert (x.1 ≠ b.1) by set_solver.
    assert (x.1 ≠ c.1) by set_solver.
    assert (b.1 ≠ c.1) by set_solver.
    assert (hd_ptr l1' (Some b.1) ≠ Some x.1)
      by (apply hd_ptr_ne; [congruence|set_solver]).
    assert (last_ptr l2' (Some c.1) ≠ Some x.1)
      by (apply last_ptr_ne; set_solver).
    exec. eexists; split; [reflexivity|]. cbn [nodes stores].
    split_and!; [lk; do 2 f_equal; lia|done| |by lk|frame_nodes|frame_stores].
    apply dll_app. split; [apply dll_snoc; split; [same_chain|by lk]|].
    rewrite last_ptr_app. cbn [dll last_ptr hd_ptr]. split; [by lk|same_chain].
Qed.

Lemma dll_live E o p l n a : dll E o p l n → a ∈ l.*1 → is_Some (E !! a).
Proof.
  revert p. induction l as [|x l IH]; intros p; simpl.
  - intros _ Hin. by apply elem_of_nil in Hin.
  - intros [Hx Hl] [->|Hin]%elem_of_cons; eauto.
Qed.

Lemma dll_fresh E o p l n a : dll E o p l n → E !! a = None → a ∉ l.*1.
Proof.
  intros Hl Ha Hin. destruct (dll_live _ _ _ _ _ _ Hl Hin) as [e He].
  congruence.
Qed.

(** ** remove *)

Lemma remove_spec h this l1 x l2 :
  repr h this (l1 ++ x :: l2) →
  ∃ this' h', remove this (Some x.1) h = Ret (this', true) h'
    ∧ repr h' this' (l1 ++ l2)
    ∧ (l1 ++ l2 ≠ [] → this' = this)
    ∧ (∀ d, _data this = Some d → l1 ++ l2 = [] → stores h' !! d = None)
    ∧ nodes h' !! x.1 = None
    ∧ (∀ a, a ∉ (l1 ++ x :: l2).*1 → nodes h' !! a = nodes h !! a)
    ∧ (∀ a, _data this ≠ Some a → stores h' !! a = stores h !! a).
Proof.
  unfold repr at 1. destruct this as [[d|]]; cbn [_data]; [|by destruct l1].
  intros [_ Hrep].
  destruct (ListData_erase_spec _ _ _ _ _ Hrep) as (h1 & Her & Hrep1 & Hx & Hfr & Hfs).
  unfold remove. cbn [_data nonnull].
  rewrite (bind_eq _ _ _ _ _ Her).
  destruct Hrep1 as (HS & Hnd & Hdll).
  erewrite bind_eq by (eapply dget_eq; eassumption). cbn [size_cache].
  destruct (l1 ++ l2) as [|y l'] eqn:Hl.
  - rewrite bool_decide_eq_true_2 by done.
    erewrite bind_eq by (eapply memdelete_store_eq; eassumption).
    eexists _, _. split; [reflexivity|]. cbn [nodes stores].
    split_and!; try done.
    + intros d' [= <-] _. apply lookup_delete_eq.
    + intros a Ha. rewrite lookup_delete_ne by congruence. apply Hfs. congruence.
  - rewrite bool_decide_eq_false_2 by (cbn [length]; lia).
    eexists _, _. split; [reflexivity|].
    split_and!; try done.
    intros a Ha. apply Hfs. congruence.
Qed.

Lemma remove_null h this l :
  repr h this l → remove this None h = Ret (this, false) h.
Proof.
  unfold repr, remove. destruct this as [[d|]]; cbn [_data nonnull]; [|done].
  intros [Hne (HS & _)]. unfold ListData_erase. cbn [nonnull negb].
  rewrite bind_ret.
  erewrite bind_eq by (eapply dget_eq; eassumption). cbn [size_cache].
  rewrite bool_decide_eq_false_2; [done|].
  destruct l; [done|]. cbn [length]. lia.
Qed.

Lemma remove_foreign h this l a e :
  repr h this l → nodes h !! a = Some e → data e ≠ _data this →
  remove this (Some a) h = Ret (this, false) h.
Proof.
  unfold repr, remove. destruct this as [[d|]]; cbn [_data nonnull]; [|done].
  intros [Hne (HS & _)] Ha Hd. unfold ListData_erase. cbn [nonnull negb].
  erewrite bind_assoc, bind_eq by (eapply get_eq; eassumption).
  unfold ptr_eq. rewrite bool_decide_eq_false_2 by done. cbn [negb].
  rewrite bind_ret.
  erewrite bind_eq by (eapply dget_eq; eassumption). cbn [size_cache].
  rewrite bool_decide_eq_false_2; [done|].
  destruct l; [done|]. cbn [length]. lia.
Qed.

(** ** push_back and push_front *)

Ltac alloc_eq :=
  first [ unfold new_node; reflexivity | unfold new_store; reflexivity ].

Lemma hd_ptr_nonnull l a : nonnull (hd_ptr l (Some a)) = true.
Proof. by destruct l. Qed.

Lemma last_ptr_nonnull l a : nonnull (last_ptr l (Some a)) = true.
Proof. revert a. induction l as [|y l IH]; intros a; simpl; [done|apply IH]. Qed.

Lemma push_back_spec h this l v :
  repr h this l →
  ∃ this' a h',
    push_back alloc_node alloc_store this v h = Ret (this', Some a) h'
    ∧ nodes h !! a = None
    ∧ repr h' this' (l ++ [(a, v)])
    ∧ (l ≠ [] → this' = this)
    ∧ (∀ b, b ∉ (l ++ [(a, v)]).*1 → nodes h' !! b = nodes h !! b)
    ∧ (∀ b, _data this' ≠ Some b → stores h' !! b = stores h !! b).
Proof using alloc_node_fresh alloc_store_fresh.
  destruct h as [E S]. unfold repr at 1.
  destruct this as [[d|]]; cbn [_data].
  - intros [Hne (HS & Hnd & Hdll)]. cbn [nodes stores] in *.
    destruct (snoc_case l) as [->|(l' & b & ->)]; [done|].
    pose proof Hdll as Hdll0.
    apply dll_snoc in Hdll as [Hl' Hb].
    rewrite hd_ptr_app, last_ptr_app in HS. cbn [hd_ptr last_ptr] in *.
    unfold push_back, ensure_data. cbn [_data nonnull negb].
    rewrite bind_ret.
    erewrite bind_eq by alloc_eq.
    cbn [nodes stores].
    generalize (alloc_node_fresh E). generalize (alloc_node E). intros a Hfresh.
    assert (a ≠ b.1) by congruence.
    pose proof (dll_fresh _ _ _ _ _ _ Hdll0 Hfresh) as Hal'.
    pose proof Hnd as Hnd0. revert Hnd0. nodup_facts. intros Hnd0.
    exec. rewrite hd_ptr_nonnull. exec.
    eexists _, _, _. split; [reflexivity|]. cbn [nodes stores _data].
    split_and!; [done| |done|frame_nodes|frame_stores].
    unfold repr, storage_repr. cbn [_data nodes stores].
    split_and!.
    + by destruct l'.
    + lk. rewrite !hd_ptr_app, !last_ptr_app, !length_app. cbn [hd_ptr last_ptr length].
      do 2 f_equal. lia.
    + rewrite fmap_app. apply NoDup_app. split_and!; [done| |apply NoDup_singleton].
      intros y Hy ->%list_elem_of_singleton. done.
    + apply dll_snoc. split.
      * apply dll_snoc. split; [same_chain|by lk].
      * rewrite last_ptr_app. cbn [last_ptr fst snd]. by lk.
  - intros ->.
    unfold push_back, ensure_data. cbn [_data nonnull negb].
    rewrite !bind_assoc.
    erewrite bind_eq by alloc_eq.
    cbn [nodes stores].
    generalize (alloc_store_fresh S). generalize (alloc_store S). intros d Hfresh'.
    exec.
    erewrite bind_eq by alloc_eq.
    cbn [nodes stores].
    generalize (alloc_node_fresh E). generalize (alloc_node E). intros a Hfresh.
    exec.
    eexists _, _, _. split; [reflexivity|]. cbn [nodes stores _data].
    split_and!; [done| |done|frame_nodes|frame_stores].
    unfold repr, storage_repr. cbn [_data nodes stores app hd_ptr last_ptr length fst snd dll].
    split_and!; [done|by lk|apply NoDup_singleton|by lk|done].
Qed.

Lemma push_front_spec h this l v :
  repr h this l →
  ∃ this' a h',
    push_front alloc_node alloc_store this v h = Ret (this', Some a) h'
    ∧ nodes h !! a = None
    ∧ repr h' this' ((a, v) :: l)
    ∧ (l ≠ [] → this' = this)
    ∧ (∀ b, b ∉ ((a, v) :: l).*1 → nodes h' !! b = nodes h !! b)
    ∧ (∀ b, _data this' ≠ Some b → stores h' !! b = stores h !! b).
Proof using alloc_node_fresh alloc_store_fresh.
  destruct h as [E S]. unfold repr at 1.
  destruct this as [[d|]]; cbn [_data].
  - intros [Hne (HS & Hnd & Hdll)]. cbn [nodes stores] in *.
    destruct l as [|b l']; [done|].
    pose proof Hdll as Hdll0.
    destruct Hdll as [Hb Hl'].
    cbn [hd_ptr last_ptr] in *.
    unfold push_front, ensure_data. cbn [_data nonnull negb].
    rewrite bind_ret.
    erewrite bind_eq by alloc_eq.
    cbn [nodes stores].
    generalize (alloc_node_fresh E). generalize (alloc_node E). intros a Hfresh.
    assert (a ≠ b.1) by congruence.
    pose proof (dll_fresh _ _ _ _ _ _ Hdll0 Hfresh) as Hal'.
    pose proof Hnd as Hnd0. revert Hnd0. nodup_facts. intros Hnd0.
    exec. rewrite last_ptr_nonnull. exec.
    eexists _, _, _. split; [reflexivity|]. cbn [nodes stores _data].
    split_and!; [done| |done|frame_nodes|frame_stores].
    unfold repr, storage_repr. cbn [_data nodes stores].
    split_and!.
    + done.
    + lk. cbn [hd_ptr last_ptr length fst]. do 2 f_equal. lia.
    + rewrite fmap_cons. apply NoDup_cons. done.
    + cbn [dll hd_ptr fst snd]. split_and!; [by lk|by lk|same_chain].
  - intros ->.
    unfold push_front, ensure_data. cbn [_data nonnull negb].
    rewrite !bind_assoc.
    erewrite bind_eq by alloc_eq.
    cbn [nodes stores].
    generalize (alloc_store_fresh S). generalize (alloc_store S). intros d Hfresh'.
    exec.
    erewrite bind_eq by alloc_eq.
    cbn [nodes stores].
    generalize (alloc_node_fresh E). generalize (alloc_node E). intros a Hfresh.
    exec.
    eexists _, _, _. split; [reflexivity|]. cbn [nodes stores _data].
    split_and!; [done| |done|frame_nodes|frame_stores].
    unfold repr, storage_repr. cbn [_data nodes stores app hd_ptr last_ptr length fst snd dll].
    split_and!; [done|by lk|apply NoDup_singleton|by lk|done].
Qed.

(** ** move_to_back and move_to_front *)

Lemma nodup_perm l l' : l ≡ₚ l' → NoDup l.*1 → NoDup l'.*1.
Proof. intros Hp. by rewrite Hp. Qed.

Lemma move_to_back_perm l1 x l2 : l1 ++ x :: l2 ≡ₚ l1 ++ l2 ++ [x].
Proof. by rewrite (Permutation_app_comm l2 [x]). Qed.

Lemma move_to_front_perm l1 x l2 : l1 ++ x :: l2 ≡ₚ x :: l1 ++ l2.
Proof. by rewrite Permutation_middle. Qed.

Ltac norm_ptrs :=
  repeat (progress
    (rewrite ?hd_ptr_app, ?last_ptr_app, ?length_app in *;
     cbn [hd_ptr last_ptr app length] in *)).

Ltac store_eq :=
  lk; cbn [first last size_cache]; do 2 f_equal; first [done | lia].

Lemma move_to_back_spec h this l1 x l2 :
  repr h this (l1 ++ x :: l2) →
  ∃ h', move_to_back this (Some x.1) h = Ret () h'
    ∧ repr h' this (l1 ++ l2 ++ [x])
    ∧ (l2 = [] → h' = h)
    ∧ (∀ a, a ∉ (l1 ++ x :: l2).*1 → nodes h' !! a = nodes h !! a)
    ∧ (∀ a, _data this ≠ Some a → stores h' !! a = stores h !! a).
Proof.
  destruct h as [E S]. unfold repr, storage_repr.
  destruct this as [[d|]]; cbn [_data nodes stores]; [|by destruct l1].
  intros (_ & HS & Hnd & Hdll).
  assert (Hnd' : NoDup (l1 ++ l2 ++ [x]).*1).
  { eapply nodup_perm; [apply move_to_back_perm|done]. }
  apply dll_middle in Hdll as (H1 & Hx & H2).
  rewrite ?length_app in *. cbn [length] in *.
  rewrite hd_ptr_app, last_ptr_app in HS.
  unfold move_to_back. cbn [_data].
  destruct (snoc_case l2) as [-> | (m & t & ->)].
  { exec. eexists; split; [reflexivity|]. split_and!; try done.
    - by destruct l1.
    - rewrite ?hd_ptr_app, ?last_ptr_app, ?length_app. done.
    - apply dll_middle. done. }
  destruct (snoc_case l1) as [-> | (l1' & b & ->)]; destruct m as [|c m'];
    try apply dll_snoc in H1 as [H1 Hb];
    try apply dll_snoc in H2 as [H2 Ht];
    try destruct H2 as [Hc H2];
    norm_ptrs;
    revert Hnd'; nodup_facts; intros Hnd'.
  - assert (x.1 ≠ t.1) by set_solver.
    eexists; split; [exec|]. cbn [nodes stores].
    split_and!; [done|store_eq|done| |done|frame_nodes|frame_stores].
    cbn [dll hd_ptr]. split_and!; [by lk|by lk|done].
  - assert (x.1 ≠ t.1) by set_solver.
    assert (x.1 ≠ c.1) by set_solver.
    assert (c.1 ≠ t.1) by set_solver.
    eexists; split; [exec|]. cbn [nodes stores].
    split_and!; [done|store_eq|done| |done|frame_nodes|frame_stores].
    cbn [dll]. rewrite !hd_ptr_app. cbn [hd_ptr]. split; [by lk|].
    rewrite <- app_assoc. apply dll_app. cbn [dll hd_ptr last_ptr app]. split; [same_chain|].
    split_and!; [by lk|by lk|done].
  - assert (x.1 ≠ t.1) by set_solver.
    assert (x.1 ≠ b.1) by set_solver.
    assert (b.1 ≠ t.1) by set_solver.
    assert (hd_ptr l1' (Some b.1) ≠ Some x.1)
      by (apply hd_ptr_ne; [congruence|set_solver]).
    eexists; split; [exec|]. cbn [nodes stores].
    split_and!; [by destruct l1'|store_eq|done| |done|frame_nodes|frame_stores].
    rewrite <- app_assoc. apply dll_app. cbn [dll hd_ptr last_ptr app].
    split; [same_chain|]. rewrite ?last_ptr_app. cbn [last_ptr].
    split_and!; [by lk|by lk|by lk|done].
  - assert (x.1 ≠ t.1) by set_solver.
    assert (x.1 ≠ c.1) by set_solver.
    assert (c.1 ≠ t.1) by set_solver.
    assert (x.1 ≠ b.1) by set_solver.
    assert (b.1 ≠ t.1) by set_solver.
    assert (b.1 ≠ c.1) by set_solver.
    assert (hd_ptr l1' (Some b.1) ≠ Some x.1)
      by (apply hd_ptr_ne; [congruence|set_solver]).
    eexists; split; [exec|]. cbn [nodes stores].
    split_and!; [by destruct l1'|store_eq|done| |done|frame_nodes|frame_stores].
    rewrite <- !app_assoc. apply dll_app. cbn [dll hd_ptr last_ptr app].
    split; [same_chain|]. rewrite ?last_ptr_app, ?hd_ptr_app. cbn [last_ptr hd_ptr].
    split_and!; [by lk|by lk| ].
    apply dll_app. cbn [dll hd_ptr last_ptr app]. split; [same_chain|].
    split_and!; [by lk|by lk|done].
Qed.

Ltac cell :=
  rewrite ?hd_ptr_app, ?last_ptr_app; cbn [hd_ptr last_ptr fst snd]; by lk.

Lemma move_to_front_spec h this l1 x l2 :
  repr h this (l1 ++ x :: l2) →
  ∃ h', move_to_front this (Some x.1) h = Ret () h'
    ∧ repr h' this (x :: l1 ++ l2)
    ∧ (l1 = [] → h' = h)
    ∧ (∀ a, a ∉ (l1 ++ x :: l2).*1 → nodes h' !! a = nodes h !! a)
    ∧ (∀ a, _data this ≠ Some a → stores h' !! a = stores h !! a).
Proof.
  destruct h as [E S]. unfold repr, storage_repr.
  destruct this as [[d|]]; cbn [_data nodes stores]; [|by destruct l1].
  intros (_ & HS & Hnd & Hdll).
  assert (Hnd' : NoDup (x :: l1 ++ l2).*1).
  { eapply nodup_perm; [apply move_to_front_perm|done]. }
  pose proof Hdll as Hdll0.
  apply dll_middle in Hdll as (H1 & Hx & H2).
  unfold move_to_front. cbn [_data].
  destruct l1 as [|f l1].
  { norm_ptrs. eexists; split; [exec; reflexivity|]. split_and!; done. }
  destruct (snoc_case l1) as [-> | (m & b & ->)]; destruct l2 as [|c l2'];
    try (rewrite app_comm_cons in H1; apply dll_snoc in H1 as [H1 Hb]);
    destruct H1 as [Hf H1];
    try destruct H2 as [Hc H2];
    norm_ptrs;
    revert Hnd'; nodup_facts; intros Hnd'.
  - assert (x.1 ≠ f.1) by set_solver.
    eexists; split; [exec|]. cbn [nodes stores].
    split_and!; [done|store_eq|done| |done|frame_nodes|frame_stores].
    cbn [dll hd_ptr]. split_and!; [by lk|by lk|done].
  - assert (x.1 ≠ f.1) by set_solver.
    assert (x.1 ≠ c.1) by set_solver.
    assert (c.1 ≠ f.1) by set_solver.
    assert (last_ptr l2' (Some c.1) ≠ Some x.1)
      by (apply last_ptr_ne; set_solver).
    eexists; split; [exec|]. cbn [nodes stores].
    split_and!; [done|store_eq|done| |done|frame_nodes|frame_stores].
    cbn [dll hd_ptr]. split_and!; [by lk|by lk|by lk|same_chain].
  - assert (x.1 ≠ f.1) by set_solver.
    assert (x.1 ≠ b.1) by set_solver.
    assert (b.1 ≠ f.1) by set_solver.
    eexists; split; [exec|]. cbn [nodes stores].
    split_and!; [done|store_eq|done| |done|frame_nodes|frame_stores].
    rewrite app_nil_r. cbn [dll hd_ptr]. split_and!; [cell|cell|].
    apply dll_snoc. split; [same_chain|cell].
  - assert (x.1 ≠ f.1) by set_solver.
    assert (x.1 ≠ b.1) by set_solver.
    assert (b.1 ≠ f.1) by set_solver.
    assert (x.1 ≠ c.1) by set_solver.
    assert (c.1 ≠ f.1) by set_solver.
    assert (b.1 ≠ c.1) by set_solver.
    assert (last_ptr l2' (Some c.1) ≠ Some x.1)
      by (apply last_ptr_ne; set_solver).
    eexists; split; [exec|]. cbn [nodes stores].
    split_and!; [done|store_eq|done| |done|frame_nodes|frame_stores].
    cbn [dll hd_ptr]. split_and!; [cell|cell|].
    apply dll_app. split; [apply dll_snoc; split; [same_chain|cell]|].
    rewrite ?last_ptr_app. cbn [dll hd_ptr last_ptr]. split; [cell|same_chain].
Qed.

(** ** Traversals *)

Lemma walk_next_spec (h : @Heap Variant) o p l fuel :
  dll (nodes h) o p l None → length l ≤ fuel →
  walk next fuel (hd_ptr l None) h = Ret l h.
Proof.
  revert p fuel. induction l as [|x l IH]; intros p fuel; cbn [dll hd_ptr length].
  - intros _ _. by destruct fuel.
  - intros [Hx Hl] Hfuel. destruct fuel as [|fuel]; [lia|].
    cbn [walk]. unfold get_value, next.
    erewrite bind_eq by (eapply get_eq; eassumption).
    erewrite bind_eq by (eapply get_eq; eassumption).
    cbn [value next_ptr].
    erewrite bind_eq by (eapply IH; [eassumption|lia]).
    by destruct x.
Qed.

Lemma walk_prev_spec (h : @Heap Variant) o l n fuel :
  dll (nodes h) o None l n → length l ≤ fuel →
  walk prev fuel (last_ptr l None) h = Ret (reverse l) h.
Proof.
  revert n fuel. induction l as [|x l IH] using rev_ind; intros n fuel.
  - intros _ _. by destruct fuel.
  - rewrite dll_snoc, last_ptr_app, length_app, reverse_snoc. cbn [last_ptr length].
    intros [Hl Hx] Hfuel. destruct fuel as [|fuel]; [lia|].
    cbn [walk]. unfold get_value, prev.
    erewrite bind_eq by (eapply get_eq; eassumption).
    erewrite bind_eq by (eapply get_eq; eassumption).
    cbn [value prev_ptr].
    erewrite bind_eq by (eapply IH; [eassumption|lia]).
    by destruct x.
Qed.

Lemma traverse_forward_spec h this l fuel :
  repr h this l → length l ≤ fuel → traverse_forward fuel this h = Ret l h.
Proof.
  unfold repr, traverse_forward, front.
  destruct this as [[d|]]; cbn [_data nonnull].
  - intros (_ & HS & _ & Hdll) Hfuel.
    erewrite bind_eq by (eapply dget_eq; eassumption).
    cbn [first]. by eapply walk_next_spec.
  - intros -> _. rewrite bind_ret. by destruct fuel.
Qed.

Lemma traverse_backward_spec h this l fuel :
  repr h this l → length l ≤ fuel → traverse_backward fuel this h = Ret (reverse l) h.
Proof.
  unfold repr, traverse_backward, back.
  destruct this as [[d|]]; cbn [_data nonnull].
  - intros (_ & HS & _ & Hdll) Hfuel.
    erewrite bind_eq by (eapply dget_eq; eassumption).
    cbn [last]. by eapply walk_prev_spec.
  - intros -> _. rewrite bind_ret. by destruct fuel.
Qed.

(** ** find and erase by value *)

Lemma find_loop_hit (h : @Heap Variant) o p l1 x l2 n v fuel :
  dll (nodes h) o p (l1 ++ x :: l2) n →
  (∀ y, y ∈ l1 → variant_eq y.2 v = false) →
  variant_eq x.2 v = true →
  length l1 < fuel →
  find_loop variant_eq fuel v (hd_ptr (l1 ++ x :: l2) n) h = Ret (Some x.1) h.
Proof.
  revert p fuel. induction l1 as [|y l1 IH]; intros p fuel;
    cbn [app dll hd_ptr length]; intros [Hy Hl] Hmiss Hhit Hfuel;
    (destruct fuel as [|fuel]; [lia|]); cbn [find_loop nonnull].
  - erewrite bind_eq by (eapply get_eq; eassumption).
    cbn [value]. by rewrite Hhit.
  - erewrite bind_eq by (eapply get_eq; eassumption).
    cbn [value]. rewrite Hmiss by apply list_elem_of_here.
    unfold next. erewrite bind_eq by (eapply get_eq; eassumption).
    cbn [next_ptr]. eapply IH; [eassumption| |done|lia].
    intros z Hz. apply Hmiss. by apply list_elem_of_further.
Qed.

Lemma find_loop_miss (h : @Heap Variant) o p l v fuel :
  dll (nodes h) o p l None →
  (∀ y, y ∈ l → variant_eq y.2 v = false) →
  length l ≤ fuel →
  find_loop variant_eq fuel v (hd_ptr l None) h = Ret None h.
Proof.
  revert p fuel. induction l as [|y l IH]; intros p fuel;
    cbn [dll hd_ptr length].
  - intros _ _ _. by destruct fuel.
  - intros [Hy Hl] Hmiss Hfuel. destruct fuel as [|fuel]; [lia|].
    cbn [find_loop nonnull].
    erewrite bind_eq by (eapply get_eq; eassumption).
    cbn [value]. rewrite Hmiss by apply list_elem_of_here.
    unfold next. erewrite bind_eq by (eapply get_eq; eassumption).
    cbn [next_ptr]. eapply IH; [eassumption| |lia].
    intros z Hz. apply Hmiss. by apply list_elem_of_further.
Qed.

Lemma find_hit h this l1 x l2 v fuel :
  repr h this (l1 ++ x :: l2) →
  (∀ y, y ∈ l1 → variant_eq y.2 v = false) →
  variant_eq x.2 v = true →
  length l1 < fuel →
  find variant_eq fuel this v h = Ret (Some x.1) h.
Proof.
  unfold repr, find, front.
  destruct this as [[d|]]; cbn [_data nonnull]; [|by destruct l1].
  intros (_ & HS & _ & Hdll) Hmiss Hhit Hfuel.
  erewrite bind_eq by (eapply dget_eq; eassumption).
  cbn [first]. by eapply find_loop_hit.
Qed.

Lemma find_miss h this l v fuel :
  repr h this l →
  (∀ y, y ∈ l → variant_eq y.2 v = false) →
  length l ≤ fuel →
  find variant_eq fuel this v h = Ret None h.
Proof.
  unfold repr, find, front.
  destruct this as [[d|]]; cbn [_data nonnull].
  - intros (_ & HS & _ & Hdll) Hmiss Hfuel.
    erewrite bind_eq by (eapply dget_eq; eassumption).
    cbn [first]. by eapply find_loop_miss.
  - intros -> _ _. rewrite bind_ret. by destruct fuel.
Qed.

(** ** clear *)

Lemma repr_nodup h this l : repr h this l → NoDup l.*1.
Proof.
  unfold repr. destruct (_data this).
  - by intros (_ & _ & Hnd & _).
  - intros ->. apply NoDup_nil_2.
Qed.

Lemma repr_data h this l : repr h this l → (_data this = None ↔ l = []).
Proof.
  unfold repr. destruct (_data this); [|done].
  intros [Hne _]. split; [done|]. intros ->. done.
Qed.

Lemma clear_spec h this l fuel :
  repr h this l → length l ≤ fuel →
  ∃ h', clear fuel this h = Ret (mkList None) h'
    ∧ (∀ a, a ∈ l.*1 → nodes h' !! a = None)
    ∧ (∀ a, a ∉ l.*1 → nodes h' !! a = nodes h !! a)
    ∧ (∀ d, _data this = Some d → stores h' !! d = None)
    ∧ (∀ a, _data this ≠ Some a → stores h' !! a = stores h !! a).
Proof.
  revert h this fuel. induction l as [|x l IH]; intros h this fuel Hrep Hfuel.
  - pose proof (proj2 (repr_data _ _ _ Hrep) eq_refl) as Hd.
    destruct this as [d]. cbn [_data] in Hd. subst d.
    exists h. split_and!; try done.
    + by destruct fuel.
    + intros a Ha. by apply elem_of_nil in Ha.
  - pose proof (repr_nodup _ _ _ Hrep) as Hnd.
    rewrite fmap_cons in Hnd. apply NoDup_cons in Hnd as [Hx Hnd].
    destruct (remove_spec h this [] x l Hrep)
      as (this1 & h1 & Hrem & Hrep1 & Hsame & Hfree & Hgone & Hfn & Hfs).
    cbn [app] in *.
    destruct (IH h1 this1 (pred fuel) Hrep1) as (h' & Hcl & Hdead & Hfn' & Hfree' & Hfs').
    { cbn [length] in Hfuel. lia. }
    destruct fuel as [|fuel]; [cbn [length] in Hfuel; lia|]. cbn [pred] in Hcl.
    exists h'. split_and!.
    + unfold repr in Hrep. destruct this as [[d|]]; cbn [_data] in *; [|done].
      destruct Hrep as (_ & HS & _). cbn [hd_ptr] in HS.
      cbn [clear]. unfold front. cbn [_data nonnull].
      erewrite bind_eq by (eapply dget_eq; eassumption). cbn [first nonnull].
      erewrite bind_eq by (eapply dget_eq; eassumption). cbn [first].
      erewrite bind_eq by eassumption. done.
    + intros a [->|Ha]%elem_of_cons; [|by apply Hdead].
      by rewrite Hfn'.
    + intros a Ha. rewrite Hfn'; [apply Hfn; done|].
      intros Hin. apply Ha. by apply list_elem_of_further.
    + intros d Hd. destruct l as [|y l].
      * rewrite Hfs'; [by apply Hfree|].
        by rewrite (proj2 (repr_data _ _ _ Hrep1) eq_refl).
      * apply Hfree'. by rewrite Hsame.
    + intros a Ha. rewrite Hfs'; [by apply Hfs|].
      destruct l as [|y l].
      * by rewrite (proj2 (repr_data _ _ _ Hrep1) eq_refl).
      * by rewrite Hsame.
Qed.

(** ** The representation implies the invariants of the specification *)

Lemma dll_links E o l :
  dll E o None l None → links_inv E l.*1.
Proof.
  intros Hdll a e Ha He.
  apply list_elem_of_fmap in Ha as (x & -> & Hx).
  apply list_elem_of_split in Hx as (l1 & l2 & ->).
  apply dll_middle in Hdll as (H1 & Hcell & H2).
  rewrite Hcell in He. injection He as <-. cbn [next_ptr prev_ptr]. split.
  - intros m Hm. destruct l2 as [|c l2']; [done|].
    cbn [hd_ptr] in Hm. injection Hm as <-.
    destruct H2 as [Hc _]. eauto.
  - intros m Hm. destruct (snoc_case l1) as [->|(l1' & b & ->)]; [done|].
    rewrite last_ptr_app in Hm. cbn [last_ptr] in Hm. injection Hm as <-.
    apply dll_snoc in H1 as [_ Hb]. eauto.
Qed.

Lemma repr_list_inv h this l : repr h this l → list_inv h this.
Proof.
  unfold repr, list_inv. destruct (_data this) as [d|]; [|done].
  intros (Hne & HS & Hnd & Hdll).
  exists (mkData (hd_ptr l None) (last_ptr l None) (Z.of_nat (length l))), l, (reverse l).
  split_and!; [done| | |].
  - unfold ends_inv. cbn [first last size_cache].
    destruct (snoc_case l) as [->|(l' & b & ->)]; [done|].
    rewrite hd_ptr_app, last_ptr_app, length_app. cbn [hd_ptr last_ptr length].
    split; split; try done; try lia.
    by destruct l'.
  - unfold count_inv. cbn [first last size_cache]. split_and!.
    + exists (length l). by eapply walk_next_spec.
    + exists (length l). by eapply walk_prev_spec.
    + done.
    + by rewrite length_reverse.
  - intros a e Ha. apply (dll_links _ _ _ Hdll).
    rewrite fmap_reverse in Ha. apply elem_of_app in Ha as [Ha|Ha]; [done|].
    by rewrite elem_of_reverse in Ha.
Qed.

(** ** pop_back and pop_front *)

Lemma last_ptr_snoc l x p : last_ptr (l ++ [x]) p = Some x.1.
Proof. by rewrite last_ptr_app. Qed.

Lemma pop_back_spec h this l x :
  repr h this (l ++ [x]) →
  ∃ this' h', pop_back this h = Ret this' h'
    ∧ repr h' this' l
    ∧ (l ≠ [] → this' = this)
    ∧ (∀ d, _data this = Some d → l = [] → stores h' !! d = None)
    ∧ nodes h' !! x.1 = None
    ∧ (∀ a, a ∉ (l ++ [x]).*1 → nodes h' !! a = nodes h !! a)
    ∧ (∀ a, _data this ≠ Some a → stores h' !! a = stores h !! a).
Proof.
  intros Hrep.
  destruct (remove_spec h this l x [] Hrep)
    as (this1 & h1 & Hrem & Hrep1 & Hsame & Hfree & Hgone & Hfn & Hfs).
  rewrite app_nil_r in *.
  exists this1, h1. split_and!; try done.
  unfold repr in Hrep. destruct this as [[d|]]; cbn [_data] in *; [|by destruct l].
  destruct Hrep as (_ & HS & _). rewrite last_ptr_snoc in HS.
  unfold pop_back. cbn [_data nonnull].
  erewrite bind_eq by (eapply dget_eq; eassumption). cbn [last nonnull].
  erewrite bind_eq by eassumption. done.
Qed.

Lemma pop_front_spec h this l x :
  repr h this (x :: l) →
  ∃ this' h', pop_front this h = Ret this' h'
    ∧ repr h' this' l
    ∧ (l ≠ [] → this' = this)
    ∧ (∀ d, _data this = Some d → l = [] → stores h' !! d = None)
    ∧ nodes h' !! x.1 = None
    ∧ (∀ a, a ∉ (x :: l).*1 → nodes h' !! a = nodes h !! a)
    ∧ (∀ a, _data this ≠ Some a → stores h' !! a = stores h !! a).
Proof.
  intros Hrep.
  destruct (remove_spec h this [] x l Hrep)
    as (this1 & h1 & Hrem & Hrep1 & Hsame & Hfree & Hgone & Hfn & Hfs).
  cbn [app] in *.
  exists this1, h1. split_and!; try done.
  unfold repr in Hrep. destruct this as [[d|]]; cbn [_data] in *; [|done].
  destruct Hrep as (_ & HS & _). cbn [hd_ptr] in HS.
  unfold pop_front. cbn [_data nonnull].
  erewrite bind_eq by (eapply dget_eq; eassumption). cbn [first nonnull].
  erewrite bind_eq by eassumption. done.
Qed.

Lemma pop_empty (h : @Heap Variant) this :
  _data this = None → pop_back this h = Ret this h ∧ pop_front this h = Ret this h.
Proof. unfold pop_back, pop_front. by intros ->. Qed.

(** ** move_before never faults on handles of the list *)

Section safety.

Variable A : list positive.
Variable d : positive.
Variable n : Z.

Local Notation inv := (@closed Variant A d n).

Lemma safe_ret {T} (t : T) (Q : T → Prop) :
  Q t → safe inv (@ret Variant T t) Q.
Proof. intros Hq h Hh. by exists t, h. Qed.

Lemma safe_bind {T U} (m : M T) (k : T → M U) (Q : T → Prop) (R : U → Prop) :
  safe inv m Q →
  (∀ t, Q t → safe inv (k t) R) →
  safe inv (bind m k) R.
Proof.
  intros Hm Hk h Hh. destruct (Hm h Hh) as (t & h1 & Hrun & Hh1 & Hq).
  destruct (Hk t Hq h1 Hh1) as (u & h2 & Hrun' & Hh2 & Hr).
  exists u, h2. by rewrite (bind_eq _ _ _ _ _ Hrun).
Qed.

Lemma safe_get_next a :
  a ∈ A → safe inv (get next_ptr (Some a)) (ptr_in A).
Proof.
  intros Ha h Hh. destruct (proj1 Hh a Ha) as (e & He & Hn & Hp).
  exists (next_ptr e), h. by rewrite (get_eq _ _ _ _ He).
Qed.

Lemma safe_get_prev a :
  a ∈ A → safe inv (get prev_ptr (Some a)) (ptr_in A).
Proof.
  intros Ha h Hh. destruct (proj1 Hh a Ha) as (e & He & Hn & Hp).
  exists (prev_ptr e), h. by rewrite (get_eq _ _ _ _ He).
Qed.

Lemma safe_dget_last :
  safe inv (dget last (Some d)) (ptr_in A).
Proof.
  intros h Hh. destruct (proj2 Hh) as (s & Hs & Hf & Hl & Hc).
  exists (last s), h. by rewrite (dget_eq _ _ _ _ Hs).
Qed.

Lemma closed_put a (h : @Heap Variant) e :
  closed A d n h →
  ptr_in A (next_ptr e) → ptr_in A (prev_ptr e) →
  closed A d n (mkHeap (<[a := e]> (nodes h)) (stores h)).
Proof.
  intros [Hn Hs] Hnx Hpv. split; [|done]. cbn [nodes].
  intros b Hb. destruct (decide (a = b)) as [->|Hne].
  - rewrite lookup_insert_eq. eauto.
  - rewrite lookup_insert_ne by done. by apply Hn.
Qed.

Lemma safe_set_next a q :
  a ∈ A → ptr_in A q → safe inv (set_next_ptr (Some a) q) (λ _, True).
Proof.
  intros Ha Hq h Hh. destruct (proj1 Hh a Ha) as (e & He & Hn & Hp).
  eexists (), _. unfold set_next_ptr. rewrite (put_eq _ _ _ _ He).
  split_and!; [done| |done]. by apply closed_put.
Qed.

Lemma safe_set_prev a q :
  a ∈ A → ptr_in A q → safe inv (set_prev_ptr (Some a) q) (λ _, True).
Proof.
  intros Ha Hq h Hh. destruct (proj1 Hh a Ha) as (e & He & Hn & Hp).
  eexists (), _. unfold set_prev_ptr. rewrite (put_eq _ _ _ _ He).
  split_and!; [done| |done]. by apply closed_put.
Qed.

Lemma safe_set_first q :
  ptr_in A q → safe inv (set_first (Some d) q) (λ _, True).
Proof.
  intros Hq h [Hn (s & Hs & Hf & Hl & Hc)].
  eexists (), _. unfold set_first. rewrite (dput_eq _ _ _ _ Hs).
  split_and!; [done| |done]. split; [done|]. cbn [stores].
  eexists. rewrite lookup_insert_eq. done.
Qed.

Lemma safe_set_last q :
  ptr_in A q → safe inv (set_last (Some d) q) (λ _, True).
Proof.
  intros Hq h [Hn (s & Hs & Hf & Hl & Hc)].
  eexists (), _. unfold set_last. rewrite (dput_eq _ _ _ _ Hs).
  split_and!; [done| |done]. split; [done|]. cbn [stores].
  eexists. rewrite lookup_insert_eq. done.
Qed.

Lemma move_before_safe a p_B :
  a ∈ A → ptr_in A p_B →
  safe inv (move_before (mkList (Some d)) (Some a) p_B) (λ _, True).
Proof.
  intros Ha Hb. unfold move_before. cbn [_data].
  eapply safe_bind; [by apply safe_get_prev|]. intros p Hp.
  eapply safe_bind.
  { destruct p as [p|]; cbn [nonnull];
      (eapply safe_bind; [by apply safe_get_next|]); intros q Hq.
    - by apply safe_set_next.
    - by apply safe_set_first. }
  intros _ _. eapply safe_bind; [by apply safe_get_next|]. intros q Hq.
  eapply safe_bind.
  { destruct q as [q|]; cbn [nonnull];
      (eapply safe_bind; [by apply safe_get_prev|]); intros r Hr.
    - by apply safe_set_prev.
    - by apply safe_set_last. }
  intros _ _. eapply safe_bind; [by apply safe_set_next|]. intros _ _.
  destruct p_B as [b|]; cbn [nonnull negb].
  - eapply safe_bind; [by apply safe_get_prev|]. intros r Hr.
    eapply safe_bind; [by apply safe_set_prev|]. intros _ _.
    eapply safe_bind; [by apply safe_get_prev|]. intros s Hs.
    eapply safe_bind.
    { destruct s as [s|]; cbn [nonnull].
      - by apply safe_set_next.
      - by apply safe_set_first. }
    intros _ _. by apply safe_set_prev.
  - eapply safe_bind; [apply safe_dget_last|]. intros r Hr.
    eapply safe_bind; [by apply safe_set_prev|]. intros _ _.
    by apply safe_set_last.
Qed.

End safety.

Lemma repr_closed h d l :
  storage_repr h d l → closed l.*1 d (Z.of_nat (length l)) h.
Proof.
  intros (HS & Hnd & Hdll). split.
  - intros a Ha.
    apply list_elem_of_fmap in Ha as (x & -> & Hx).
    apply list_elem_of_split in Hx as (l1 & l2 & ->).
    apply dll_middle in Hdll as (H1 & Hcell & H2).
    eexists. split; [done|]. cbn [next_ptr prev_ptr]. split.
    + destruct l2 as [|c l2']; [done|]. cbn [hd_ptr ptr_in]. set_solver.
    + destruct (snoc_case l1) as [->|(l1' & b & ->)]; [done|].
      rewrite last_ptr_app. cbn [last_ptr ptr_in]. set_solver.
  - eexists. split; [done|]. cbn [first last size_cache]. split_and!; [| |done].
    + destruct l as [|c l']; [done|]. cbn [hd_ptr ptr_in]. set_solver.
    + destruct (snoc_case l) as [->|(l' & b & ->)]; [done|].
      rewrite last_ptr_app. cbn [last_ptr ptr_in]. set_solver.
Qed.

(** ** size, and the guards of move_to_back and move_to_front *)

Lemma size_spec h this l :
  repr h this l → size this h = Ret (Z.of_nat (length l)) h.
Proof.
  unfold repr, size. destruct this as [[d|]]; cbn [_data nonnull].
  - intros (_ & HS & _). by rewrite (dget_eq _ _ _ _ HS).
  - by intros ->.
Qed.

Lemma move_to_back_foreign (h : @Heap Variant) this a e :
  nodes h !! a = Some e → data e ≠ _data this →
  move_to_back this (Some a) h = Ret () h.
Proof.
  intros He Hd. unfold move_to_back.
  rewrite (bind_eq _ _ _ _ _ (get_eq data _ _ _ He)).
  unfold ptr_eq. by rewrite bool_decide_eq_false_2.
Qed.

Lemma move_to_front_foreign (h : @Heap Variant) this a e :
  nodes h !! a = Some e → data e ≠ _data this →
  move_to_front this (Some a) h = Ret () h.
Proof.
  intros He Hd. unfold move_to_front.
  rewrite (bind_eq _ _ _ _ _ (get_eq data _ _ _ He)).
  unfold ptr_eq. by rewrite bool_decide_eq_false_2.
Qed.

(** ** move_before with a null second argument

    The branch for [p_B == nullptr] sets [p_A->prev_ptr] and
    [_data->last] but never [_data->last->next_ptr] (nor [_data->first]
    when [p_A] was the only node): after the call the chain from the head
    is the old chain without [p_A]. *)

Ltac read_store := erewrite dget_eq by lookup_now; reflexivity.

Lemma move_before_null_spec h this l1 x l2 :
  repr h this (l1 ++ x :: l2) →
  ∃ h', move_before this (Some x.1) None h = Ret () h'
    ∧ front this h' = Ret (hd_ptr (l1 ++ l2) None) h'
    ∧ back this h' = Ret (Some x.1) h'
    ∧ dll (nodes h') (_data this) None (l1 ++ l2) None
    ∧ nodes h' !! x.1
      = Some (mkElement x.2 None (last_ptr (l1 ++ l2) None) (_data this)).
Proof.
  destruct h as [E S]. unfold repr, storage_repr.
  destruct this as [[d|]]; cbn [_data nodes stores]; [|by destruct l1].
  intros (_ & HS & Hnd & Hdll).
  apply dll_middle in Hdll as (H1 & Hx & H2).
  unfold move_before, front, back. cbn [_data nonnull].
  destruct (snoc_case l1) as [-> | (l1' & b & ->)]; destruct l2 as [|c l2'];
    try apply dll_snoc in H1 as [H1 Hb]; try destruct H2 as [Hc H2];
    norm_ptrs; nodup_facts.
  - eexists; split; [exec|]. cbn [nodes stores].
    split_and!; [read_store|read_store|done|by lk].
  - assert (x.1 ≠ c.1) by set_solver.
    eexists; split; [exec|]. cbn [nodes stores].
    split_and!; [read_store|read_store| |by lk].
    cbn [dll]. split; [by lk|same_chain].
  - assert (x.1 ≠ b.1) by set_solver.
    eexists; split; [exec|]. cbn [nodes stores].
    split_and!; [read_store|read_store| |cell].
    rewrite app_nil_r. apply dll_snoc. split; [same_chain|by lk].
  - assert (x.1 ≠ b.1) by set_solver.
    assert (x.1 ≠ c.1) by set_solver.
    assert (b.1 ≠ c.1) by set_solver.
    eexists; split; [exec|]. cbn [nodes stores].
    split_and!; [read_store|read_store| |cell].
    apply dll_app. split; [apply dll_snoc; split; [same_chain|by lk]|].
    rewrite ?last_ptr_app. cbn [dll hd_ptr last_ptr]. split; [by lk|same_chain].
Qed.

Lemma move_before_null_forward h this l1 x l2 fuel :
  repr h this (l1 ++ x :: l2) → length (l1 ++ l2) ≤ fuel →
  ∃ h', move_before this (Some x.1) None h = Ret () h'
    ∧ traverse_forward fuel this h' = Ret (l1 ++ l2) h'.
Proof.
  intros Hrep Hfuel.
  destruct (move_before_null_spec _ _ _ _ _ Hrep) as (h' & Hrun & Hf & _ & Hdll & _).
  exists h'. split; [done|]. unfold traverse_forward.
  rewrite (bind_eq _ _ _ _ _ Hf). by eapply walk_next_spec.
Qed.

(** * The claims *)

(** C4. On a list [l1 ++ x :: l2], [move_to_front] and [move_to_back] of
    the handle of [x] return, leave a well-formed list holding the same
    cells (same addresses, same payloads) in the order [x :: l1 ++ l2],
    respectively [l1 ++ l2 ++ [x]] -- a permutation of the old one, so
    the multiset of values is the same --, and [size()] answers the same
    count; when [x] already is the first, respectively the last cell, the
    heap after the call is the heap before it.  The bound of three
    elements of the claim is not needed. *)
Theorem move_to_ends_reorders_only h this l1 x l2 :
  repr h this (l1 ++ x :: l2) →
  (∃ h', move_to_front this (Some x.1) h = Ret () h'
     ∧ repr h' this (x :: l1 ++ l2)
     ∧ x :: l1 ++ l2 ≡ₚ l1 ++ x :: l2
     ∧ size this h = Ret (Z.of_nat (length (l1 ++ x :: l2))) h
     ∧ size this h' = Ret (Z.of_nat (length (l1 ++ x :: l2))) h'
     ∧ (l1 = [] → h' = h))
  ∧ (∃ h', move_to_back this (Some x.1) h = Ret () h'
     ∧ repr h' this (l1 ++ l2 ++ [x])
     ∧ l1 ++ l2 ++ [x] ≡ₚ l1 ++ x :: l2
     ∧ size this h = Ret (Z.of_nat (length (l1 ++ x :: l2))) h
     ∧ size this h' = Ret (Z.of_nat (length (l1 ++ x :: l2))) h'
     ∧ (l2 = [] → h' = h)).
Proof.
  intros Hrep. split.
  - destruct (move_to_front_spec _ _ _ _ _ Hrep) as (h' & Hrun & Hrep' & Hsame & _).
    exists h'. split_and!; [done|done| | | |done].
    + symmetry. apply move_to_front_perm.
    + by apply size_spec.
    + rewrite (size_spec _ _ _ Hrep'). do 2 f_equal.
      by rewrite (Permutation_length (move_to_front_perm l1 x l2)).
  - destruct (move_to_back_spec _ _ _ _ _ Hrep) as (h' & Hrun & Hrep' & Hsame & _).
    exists h'. split_and!; [done|done| | | |done].
    + symmetry. apply move_to_back_perm.
    + by apply size_spec.
    + rewrite (size_spec _ _ _ Hrep'). do 2 f_equal.
      by rewrite (Permutation_length (move_to_back_perm l1 x l2)).
Qed.

(** C5. With enough fuel for the scan, [find(v)] returns the handle of the
    first cell, front to back, whose payload compares equal to [v], and
    null when no payload does; in the first case [erase(v)] returns true
    and leaves the list without exactly that cell, one shorter, and in the
    second case it returns false and changes neither heap nor handle. *)
Theorem find_first_and_erase_value h this l v fuel :
  repr h this l → length l ≤ fuel →
  (∀ l1 x l2,
     l = l1 ++ x :: l2 →
     (∀ y, y ∈ l1 → variant_eq y.2 v = false) →
     variant_eq x.2 v = true →
     find variant_eq fuel this v h = Ret (Some x.1) h
     ∧ ∃ this' h',
         erase variant_eq fuel this v h = Ret (this', true) h'
         ∧ repr h' this' (l1 ++ l2)
         ∧ nodes h' !! x.1 = None
         ∧ size this' h' = Ret (Z.of_nat (length l) - 1)%Z h')
  ∧ ((∀ y, y ∈ l → variant_eq y.2 v = false) →
     find variant_eq fuel this v h = Ret None h
     ∧ erase variant_eq fuel this v h = Ret (this, false) h).
Proof.
  intros Hrep Hfuel. split.
  - intros l1 x l2 -> Hmiss Hhit.
    assert (Hfind : find variant_eq fuel this v h = Ret (Some x.1) h).
    { eapply find_hit; [done..|]. rewrite length_app in Hfuel. cbn in Hfuel. lia. }
    split; [done|].
    destruct (remove_spec _ _ _ _ _ Hrep)
      as (this' & h' & Hrem & Hrep' & _ & _ & Hgone & _).
    exists this', h'. unfold erase. rewrite (bind_eq _ _ _ _ _ Hfind).
    split_and!; [done..|].
    rewrite (size_spec _ _ _ Hrep'). f_equal.
    rewrite !length_app. cbn [length]. lia.
  - intros Hmiss.
    assert (Hfind : find variant_eq fuel this v h = Ret None h)
      by by eapply find_miss.
    split; [done|]. unfold erase. rewrite (bind_eq _ _ _ _ _ Hfind).
    by eapply remove_null.
Qed.

Lemma push_back_all_spec h this l vs :
  repr h this l →
  ∃ this' l' h',
    push_back_all alloc_node alloc_store this vs h
      = Ret (this', Some <$> l'.*1) h'
    ∧ repr h' this' (l ++ l')
    ∧ l'.*2 = vs.
Proof using alloc_node_fresh alloc_store_fresh.
  revert h this l. induction vs as [|v vs IH]; intros h this l Hrep.
  - exists this, [], h. rewrite app_nil_r. done.
  - destruct (push_back_spec _ _ _ v Hrep) as (this1 & a & h1 & Hrun & _ & Hrep1 & _).
    destruct (IH _ _ _ Hrep1) as (this2 & l' & h2 & Hrun' & Hrep2 & Hvals).
    exists this2, ((a, v) :: l'), h2. cbn [push_back_all].
    rewrite (bind_eq _ _ _ _ _ Hrun). cbn [fst snd].
    rewrite (bind_eq _ _ _ _ _ Hrun'). cbn [fst snd].
    rewrite <- app_assoc in Hrep2. split_and!; [done|done|].
    rewrite fmap_cons. cbn [snd]. by rewrite Hvals.
Qed.

(** C6. Pushing the values [vs] with [push_back], one after the other,
    into a handle without storage returns; afterwards the traversal from
    [front()] along [next()] visits cells whose payloads are [vs] in push
    order, and the traversal from [back()] along [prev()] visits the same
    cells in the opposite order, so their payloads are [vs] reversed. *)
Theorem push_back_all_traversals (h : @Heap Variant) vs :
  ∃ this' l h',
    push_back_all alloc_node alloc_store (mkList None) vs h
      = Ret (this', Some <$> l.*1) h'
    ∧ traverse_forward (length vs) this' h' = Ret l h'
    ∧ l.*2 = vs
    ∧ traverse_backward (length vs) this' h' = Ret (reverse l) h'
    ∧ (reverse l).*2 = reverse vs.
Proof using alloc_node_fresh alloc_store_fresh.
  destruct (push_back_all_spec h (mkList None) [] vs eq_refl)
    as (this' & l & h' & Hrun & Hrep & Hvals).
  cbn [app] in Hrep.
  assert (length l = length vs) as Hlen by by rewrite <- Hvals, length_fmap.
  exists this', l, h'. split_and!; [done| |done| |].
  - apply traverse_forward_spec; [done|lia].
  - apply traverse_backward_spec; [done|lia].
  - by rewrite fmap_reverse, Hvals.
Qed.

(** C8. On a well-formed list [l], [push_back(v)] and [push_front(v)]
    return the handle of a node that was not live before; afterwards the
    list is [l] followed, respectively preceded, by that one node with
    payload [v]: the cells of [l] keep their addresses, their payloads and
    their order. *)
Theorem push_preserves_existing h this l v :
  repr h this l →
  (∃ this' a h',
     push_back alloc_node alloc_store this v h = Ret (this', Some a) h'
     ∧ nodes h !! a = None
     ∧ repr h' this' (l ++ [(a, v)]))
  ∧ (∃ this' a h',
     push_front alloc_node alloc_store this v h = Ret (this', Some a) h'
     ∧ nodes h !! a = None
     ∧ repr h' this' ((a, v) :: l)).
Proof using alloc_node_fresh alloc_store_fresh.
  intros Hrep. split.
  - destruct (push_back_spec _ _ _ v Hrep) as (this' & a & h' & ? & ? & ? & _).
    by exists this', a, h'.
  - destruct (push_front_spec _ _ _ v Hrep) as (this' & a & h' & ? & ? & ? & _).
    by exists this', a, h'.
Qed.

(** C9. On a well-formed list, for every handle [a] of the list and every
    [p_B] that is null or a handle of the list ([p_B] may be [a] itself),
    [move_before(a, p_B)] returns, and [size()] answers the same count
    after the call as before it. *)
Theorem move_before_keeps_size h this l a p_B :
  repr h this l → a ∈ l.*1 → ptr_in l.*1 p_B →
  ∃ h', move_before this (Some a) p_B h = Ret () h'
    ∧ size this h = Ret (Z.of_nat (length l)) h
    ∧ size this h' = Ret (Z.of_nat (length l)) h'.
Proof.
  intros Hrep Ha Hb. pose proof (size_spec _ _ _ Hrep) as Hsize.
  unfold repr in Hrep. destruct this as [[d|]]; cbn [_data] in Hrep.
  - destruct Hrep as [_ Hrep]. apply repr_closed in Hrep.
    destruct (move_before_safe _ _ _ _ _ Ha Hb h Hrep)
      as ([] & h' & Hrun & [_ (s & Hs & _ & _ & Hn)] & _).
    exists h'. split_and!; [done|done|].
    unfold size. cbn [_data nonnull]. rewrite (dget_eq _ _ _ _ Hs). by rewrite Hn.
  - subst l. by apply elem_of_nil in Ha.
Qed.

(** C10. On a handle that owns no storage, [remove] returns false for
    every argument, null included, and changes neither the handle nor the
    heap. *)
Theorem remove_without_storage (h : @Heap Variant) this p_I :
  _data this = None → remove this p_I h = Ret (this, false) h.
Proof. unfold remove. by intros ->. Qed.

Lemma repr_nil_handle (h : @Heap Variant) this :
  repr h this [] → this = mkList None.
Proof.
  intros Hrep. destruct this as [d]. f_equal.
  exact (proj2 (repr_data _ _ _ Hrep) eq_refl).
Qed.

(** C7. On a well-formed list [l]: when [l] is empty, [pop_back] and
    [pop_front] return with the same handle and the same heap; otherwise
    they return, the tail, respectively head, node is no longer live and
    the list is [l] without it.  [remove] of a handle of the list does the
    same for that node.  Whenever one of them removes the last node, and
    whenever [clear] runs (with fuel for its loop), the storage block is
    released and the handle is the one of a freshly constructed list
    ([_data] null), so a later [push_back(v)] builds the one-element list
    of [v]; after [clear] none of the nodes of [l] is live. *)
Theorem pop_and_clear_release h this l :
  repr h this l →
  (l = [] → pop_back this h = Ret this h ∧ pop_front this h = Ret this h)
  ∧ (∀ l' x, l = l' ++ [x] →
       ∃ this' h', pop_back this h = Ret this' h'
         ∧ repr h' this' l'
         ∧ nodes h' !! x.1 = None
         ∧ (l' = [] →
            this' = mkList None ∧ ∀ d, _data this = Some d → stores h' !! d = None))
  ∧ (∀ x l', l = x :: l' →
       ∃ this' h', pop_front this h = Ret this' h'
         ∧ repr h' this' l'
         ∧ nodes h' !! x.1 = None
         ∧ (l' = [] →
            this' = mkList None ∧ ∀ d, _data this = Some d → stores h' !! d = None))
  ∧ (∀ l1 x l2, l = l1 ++ x :: l2 →
       ∃ this' h', remove this (Some x.1) h = Ret (this', true) h'
         ∧ repr h' this' (l1 ++ l2)
         ∧ nodes h' !! x.1 = None
         ∧ (l1 ++ l2 = [] →
            this' = mkList None ∧ ∀ d, _data this = Some d → stores h' !! d = None))
  ∧ (∀ fuel, length l ≤ fuel →
       ∃ h', clear fuel this h = Ret (mkList None) h'
         ∧ (∀ a, a ∈ l.*1 → nodes h' !! a = None)
         ∧ (∀ d, _data this = Some d → stores h' !! d = None)
         ∧ ∀ v, ∃ this'' a h'',
             push_back alloc_node alloc_store (mkList None) v h'
               = Ret (this'', Some a) h''
             ∧ repr h'' this'' [(a, v)]).
Proof using alloc_node_fresh alloc_store_fresh.
  intros Hrep. split_and!.
  - intros ->. apply pop_empty. by apply (repr_data _ _ _ Hrep).
  - intros l' x ->.
    destruct (pop_back_spec _ _ _ _ Hrep)
      as (this' & h' & Hrun & Hrep' & _ & Hfree & Hgone & _).
    exists this', h'. split_and!; [done..|].
    intros ->. split; [by eapply repr_nil_handle|]. intros d Hd. by apply Hfree.
  - intros x l' ->.
    destruct (pop_front_spec _ _ _ _ Hrep)
      as (this' & h' & Hrun & Hrep' & _ & Hfree & Hgone & _).
    exists this', h'. split_and!; [done..|].
    intros ->. split; [by eapply repr_nil_handle|]. intros d Hd. by apply Hfree.
  - intros l1 x l2 ->.
    destruct (remove_spec _ _ _ _ _ Hrep)
      as (this' & h' & Hrun & Hrep' & _ & Hfree & Hgone & _).
    exists this', h'. split_and!; [done..|].
    intros Hnil. split; [|intros d Hd; by apply Hfree].
    rewrite Hnil in Hrep'. by eapply repr_nil_handle.
  - intros fuel Hfuel.
    destruct (clear_spec _ _ _ _ Hrep Hfuel) as (h' & Hrun & Hdead & _ & Hfree & _).
    exists h'. split_and!; [done..|].
    intros v.
    destruct (push_back_spec h' (mkList None) [] v eq_refl)
      as (this'' & a & h'' & Hpush & _ & Hrep'' & _).
    by exists this'', a, h''.
Qed.

(** A traversal that returns does so with one result, whatever the fuel. *)
Lemma walk_det (step : ptr → M ptr) f1 f2 it (h h1 h2 : @Heap Variant) l1 l2 :
  walk step f1 it h = Ret l1 h1 → walk step f2 it h = Ret l2 h2 →
  l1 = l2 ∧ h1 = h2.
Proof.
  revert f2 it h h1 h2 l1 l2.
  induction f1 as [|f1 IH]; intros f2 it h h1 h2 l1 l2;
    destruct it as [a|]; destruct f2 as [|f2]; cbn [walk]; try done;
    try (unfold ret; intros [= <- <-] [= <- <-]; done).
  unfold bind.
  destruct (get_value (Some a) h) as [v h'| |]; [|done..].
  destruct (step (Some a) h') as [q h''| |]; [|done..].
  destruct (walk step f1 q h'') as [r1 k1| |] eqn:Hw1; [|done..].
  destruct (walk step f2 q h'') as [r2 k2| |] eqn:Hw2; [|done..].
  destruct (IH _ _ _ _ _ _ _ Hw1 Hw2) as [-> ->].
  unfold ret. by intros [= <- <-] [= <- <-].
Qed.

(** Distinctness facts, read off one [NoDup] hypothesis on a list of
    addresses written as segments and cells: every cell differs from the
    cells after it and is outside every segment. *)
Ltac split_notin H :=
  lazymatch type of H with
  | _ ∉ [] => clear H
  | _ ∉ _ :: _ =>
      let H1 := fresh "Hne" in let H2 := fresh "Hnin" in
      apply not_elem_of_cons in H as [H1 H2]; split_notin H2
  | _ ∉ _ ++ _ =>
      let H1 := fresh "Hout" in let H2 := fresh "Hnin" in
      apply not_elem_of_app in H as [H1 H2]; split_notin H2
  | _ => idtac
  end.

Ltac mem_now :=
  first
    [ apply list_elem_of_here
    | apply list_elem_of_further; mem_now
    | apply elem_of_app; right; mem_now ].

Ltac cells_outside Hd L rest :=
  lazymatch rest with
  | ?k :: ?r =>
      let Hk := fresh "Hout" in
      assert (k ∉ L) as Hk
        by (let Hin := fresh in intros Hin; apply (Hd _ Hin); mem_now);
      cells_outside Hd L r
  | _ ++ ?r => cells_outside Hd L r
  | _ => idtac
  end.

Ltac nodup_walk H :=
  lazymatch type of H with
  | NoDup [] => clear H
  | NoDup (?k :: ?rest) =>
      let Hk := fresh "Hnin" in let Hr := fresh "Hnd" in
      apply NoDup_cons in H as [Hk Hr]; split_notin Hk; nodup_walk Hr
  | NoDup (?L ++ ?rest) =>
      let Hd := fresh "Hdisj" in let Hr := fresh "Hnd" in
      apply NoDup_app in H as (_ & Hd & Hr);
      cells_outside Hd L rest; clear Hd; nodup_walk Hr
  | _ => idtac
  end.

Ltac flatten_in H :=
  repeat (progress
    (rewrite ?fmap_app, ?fmap_cons, ?fmap_nil, <- ?app_assoc in H;
     cbn [app] in H)).

Ltac distinct H := flatten_in H; nodup_walk H.

Ltac same_heap_on :=
  let a := fresh "a" in let Ha := fresh "Ha" in
  intros a Ha;
  repeat first
    [ rewrite lookup_insert_ne by congruence
    | rewrite lookup_delete_ne by congruence ];
  reflexivity.

Ltac keep_chain :=
  rewrite ?hd_ptr_app, ?last_ptr_app; cbn [hd_ptr last_ptr];
  (eapply dll_ext; [|eassumption]); same_heap_on.

Ltac solve_dll :=
  rewrite <- ?app_assoc; cbn [app];
  repeat match goal with
  | |- True => exact I
  | |- _ ∧ _ => split
  | |- _ !! _ = Some _ => cell
  | |- dll _ _ _ [] _ => exact I
  | |- dll _ _ _ (_ :: _) _ => cbn [dll]
  | |- dll _ _ _ (_ ++ _) _ => apply dll_app
  | |- dll _ _ _ ?l _ => is_var l; keep_chain
  end.

(** ** move_before with a non-null second argument *)

Lemma move_before_perm_after l1 y l2 x l3 :
  l1 ++ y :: l2 ++ x :: l3 ≡ₚ l1 ++ x :: y :: l2 ++ l3.
Proof.
  apply Permutation_app_head. rewrite (Permutation_middle (y :: l2) l3 x).
  done.
Qed.

Lemma move_before_perm_before l1 x l2 y l3 :
  l1 ++ x :: l2 ++ y :: l3 ≡ₚ l1 ++ l2 ++ x :: y :: l3.
Proof. apply Permutation_app_head. by rewrite Permutation_middle. Qed.

Ltac frame_cells :=
  let a := fresh "a" in let Ha := fresh "Ha" in
  intros a Ha; flatten_in Ha; split_notin Ha;
  repeat first
    [ rewrite lookup_insert_ne by congruence
    | rewrite lookup_delete_ne by congruence ];
  reflexivity.

Ltac run_move_framed :=
  (eexists; split; [exec|]); cbn [nodes stores];
  (split_and!; [done|store_eq|done|solve_dll|frame_cells|frame_stores]).

Lemma move_before_spec_after h this l1 y l2 x l3 :
  repr h this (l1 ++ y :: l2 ++ x :: l3) →
  ∃ h', move_before this (Some x.1) (Some y.1) h = Ret () h'
    ∧ repr h' this (l1 ++ x :: y :: l2 ++ l3)
    ∧ (∀ a, a ∉ (l1 ++ y :: l2 ++ x :: l3).*1 → nodes h' !! a = nodes h !! a)
    ∧ (∀ a, _data this ≠ Some a → stores h' !! a = stores h !! a).
Proof.
  destruct h as [E S]. unfold repr, storage_repr.
  destruct this as [[d|]]; cbn [_data nodes stores]; [|by destruct l1].
  intros (_ & HS & Hnd & Hdll).
  assert (Hnd' : NoDup (l1 ++ x :: y :: l2 ++ l3).*1).
  { eapply nodup_perm; [apply move_before_perm_after|done]. }
  assert (Hne : l1 ++ x :: y :: l2 ++ l3 ≠ []) by by destruct l1.
  apply dll_middle in Hdll as (H1 & Hy & H2).
  apply dll_middle in H2 as (H2 & Hx & H3).
  unfold move_before. cbn [_data].
  destruct (snoc_case l1) as [-> | (l1' & a & ->)];
    destruct (snoc_case l2) as [-> | (l2' & b & ->)];
    destruct l3 as [|c l3'];
    try apply dll_snoc in H1 as [H1 Ha];
    try apply dll_snoc in H2 as [H2 Hb];
    try destruct H3 as [Hc H3];
    norm_ptrs; distinct Hnd; run_move_framed.
Qed.

Lemma move_before_spec_before h this l1 x l2 y l3 :
  repr h this (l1 ++ x :: l2 ++ y :: l3) →
  ∃ h', move_before this (Some x.1) (Some y.1) h = Ret () h'
    ∧ repr h' this (l1 ++ l2 ++ x :: y :: l3)
    ∧ (∀ a, a ∉ (l1 ++ x :: l2 ++ y :: l3).*1 → nodes h' !! a = nodes h !! a)
    ∧ (∀ a, _data this ≠ Some a → stores h' !! a = stores h !! a).
Proof.
  destruct h as [E S]. unfold repr, storage_repr.
  destruct this as [[d|]]; cbn [_data nodes stores]; [|by destruct l1].
  intros (_ & HS & Hnd & Hdll).
  assert (Hnd' : NoDup (l1 ++ l2 ++ x :: y :: l3).*1).
  { eapply nodup_perm; [apply move_before_perm_before|done]. }
  assert (Hne : l1 ++ l2 ++ x :: y :: l3 ≠ []) by (destruct l1, l2; done).
  apply dll_middle in Hdll as (H1 & Hx & H2).
  apply dll_middle in H2 as (H2 & Hy & H3).
  unfold move_before. cbn [_data].
  destruct (snoc_case l1) as [-> | (l1' & a & ->)];
    (destruct l2 as [|c l2];
       [|destruct (snoc_case l2) as [-> | (l2' & b & ->)]]);
    try apply dll_snoc in H1 as [H1 Ha];
    try (destruct H2 as [Hc H2]);
    try apply dll_snoc in H2 as [H2 Hb];
    norm_ptrs; distinct Hnd; run_move_framed.
Qed.

Lemma move_before_runs h d l a p_B :
  storage_repr h d l → a ∈ l.*1 → ptr_in l.*1 p_B →
  ∃ h', move_before (mkList (Some d)) (Some a) p_B h = Ret () h'
    ∧ size (mkList (Some d)) h' = Ret (Z.of_nat (length l)) h'.
Proof.
  intros Hrep Ha Hb. apply repr_closed in Hrep.
  destruct (move_before_safe _ _ _ _ _ Ha Hb h Hrep)
    as ([] & h' & Hrun & [_ (s & Hs & _ & _ & Hn)] & _).
  exists h'. split; [done|].
  unfold size. cbn [_data nonnull]. rewrite (dget_eq _ _ _ _ Hs). by rewrite Hn.
Qed.

(** ** Accessors, frames and agreement of representations *)

Lemma front_spec h this l : repr h this l → front this h = Ret (hd_ptr l None) h.
Proof.
  unfold repr, front. destruct this as [[d|]]; cbn [_data nonnull].
  - intros (_ & HS & _). by rewrite (dget_eq _ _ _ _ HS).
  - by intros ->.
Qed.

Lemma back_spec h this l : repr h this l → back this h = Ret (last_ptr l None) h.
Proof.
  unfold repr, back. destruct this as [[d|]]; cbn [_data nonnull].
  - intros (_ & HS & _). by rewrite (dget_eq _ _ _ _ HS).
  - by intros ->.
Qed.

Lemma empty_spec h this l :
  repr h this l → empty this h = Ret (bool_decide (l = [])) h.
Proof.
  unfold repr, empty. destruct this as [[d|]]; cbn [_data nonnull].
  - intros (Hne & HS & _).
    rewrite (bind_eq _ _ _ _ _ (dget_eq size_cache _ _ _ HS)). cbn [size_cache].
    unfold ret. f_equal. rewrite (bool_decide_eq_false_2 (l = [])) by done.
    apply bool_decide_eq_false_2. destruct l; [done|]. cbn [length]. lia.
  - intros ->. by rewrite bool_decide_eq_true_2.
Qed.

Lemma dll_owner E o p l n a e :
  dll E o p l n → a ∈ l.*1 → E !! a = Some e → data e = o.
Proof.
  revert p. induction l as [|x l IH]; intros p; cbn [dll].
  - intros _ Hin. by apply elem_of_nil in Hin.
  - rewrite fmap_cons. intros [Hx Hl] [->|Hin]%elem_of_cons He.
    + rewrite Hx in He. by injection He as <-.
    + by eapply IH.
Qed.

Lemma dll_agree E E' o p l n a :
  dll E o p l n → dll E' o p l n → a ∈ l.*1 → E' !! a = E !! a.
Proof.
  revert p. induction l as [|x l IH]; intros p; cbn [dll].
  - intros _ _ Hin. by apply elem_of_nil in Hin.
  - rewrite fmap_cons. intros [Hx Hl] [Hx' Hl'] [->|Hin]%elem_of_cons.
    + by rewrite Hx, Hx'.
    + by eapply IH.
Qed.

Lemma repr_live h this l a :
  repr h this l → a ∈ l.*1 →
  ∃ e, nodes h !! a = Some e ∧ data e = _data this.
Proof.
  unfold repr. destruct (_data this) as [d|].
  - intros (_ & _ & _ & Hdll) Hin.
    destruct (dll_live _ _ _ _ _ _ Hdll Hin) as [e He].
    exists e. split; [done|]. by eapply dll_owner.
  - intros -> Hin. by apply elem_of_nil in Hin.
Qed.

Lemma repr_disjoint h this l other l' a :
  repr h this l → repr h other l' → _data this ≠ _data other →
  a ∈ l.*1 → a ∉ l'.*1.
Proof.
  intros Hrep Hrep' Hne Hin Hin'.
  destruct (repr_live _ _ _ _ Hrep Hin) as (e & He & Hd).
  destruct (repr_live _ _ _ _ Hrep' Hin') as (e' & He' & Hd').
  congruence.
Qed.

Lemma repr_frame h h' other l' :
  repr h other l' →
  (∀ a, a ∈ l'.*1 → nodes h' !! a = nodes h !! a) →
  (∀ d, _data other = Some d → stores h' !! d = stores h !! d) →
  repr h' other l'.
Proof.
  unfold repr, storage_repr. destruct (_data other) as [d|]; [|done].
  intros (Hne & HS & Hnd & Hdll) Hn Hs. split_and!; [done| |done|].
  - by rewrite Hs.
  - by eapply dll_ext.
Qed.

Lemma repr_store_live h this l d :
  repr h this l → _data this = Some d → is_Some (stores h !! d).
Proof. unfold repr. intros Hrep Hd. rewrite Hd in Hrep. destruct Hrep as (_ & HS & _). eauto. Qed.

(** A push into a handle without storage allocates its block at an
    address that was not live. *)
Lemma push_back_new_store (h : @Heap Variant) v this' p h' :
  push_back alloc_node alloc_store (mkList None) v h = Ret (this', p) h' →
  ∃ d, _data this' = Some d ∧ stores h !! d = None.
Proof using alloc_node_fresh alloc_store_fresh.
  destruct h as [E S].
  unfold push_back, ensure_data. cbn [_data nonnull negb].
  rewrite !bind_assoc. erewrite bind_eq by alloc_eq. cbn [nodes stores].
  generalize (alloc_store_fresh S). generalize (alloc_store S). intros d Hd.
  exec. erewrite bind_eq by alloc_eq. cbn [nodes stores].
  generalize (alloc_node_fresh E). generalize (alloc_node E). intros a Ha.
  exec. unfold ret. intros [= <- _ _]. eauto.
Qed.

Lemma push_front_new_store (h : @Heap Variant) v this' p h' :
  push_front alloc_node alloc_store (mkList None) v h = Ret (this', p) h' →
  ∃ d, _data this' = Some d ∧ stores h !! d = None.
Proof using alloc_node_fresh alloc_store_fresh.
  destruct h as [E S].
  unfold push_front, ensure_data. cbn [_data nonnull negb].
  rewrite !bind_assoc. erewrite bind_eq by alloc_eq. cbn [nodes stores].
  generalize (alloc_store_fresh S). generalize (alloc_store S). intros d Hd.
  exec. erewrite bind_eq by alloc_eq. cbn [nodes stores].
  generalize (alloc_node_fresh E). generalize (alloc_node E). intros a Ha.
  exec. unfold ret. intros [= <- _ _]. eauto.
Qed.

(** Undoing a push: when a node [a] was added to [l] and then taken away
    again, with the frames that the push and the removal guarantee, the
    handle and the heap are the ones before the push. *)
Lemma push_undone h this l a h1 this1 h2 this2 :
  repr h this l → nodes h !! a = None →
  (l ≠ [] → this1 = this) →
  (l = [] → ∃ d, _data this1 = Some d ∧ stores h !! d = None) →
  (∀ b, b ≠ a → b ∉ l.*1 → nodes h1 !! b = nodes h !! b) →
  (∀ b, _data this1 ≠ Some b → stores h1 !! b = stores h !! b) →
  repr h2 this2 l →
  (l ≠ [] → this2 = this1) →
  (∀ d, _data this1 = Some d → l = [] → stores h2 !! d = None) →
  nodes h2 !! a = None →
  (∀ b, b ≠ a → b ∉ l.*1 → nodes h2 !! b = nodes h1 !! b) →
  (∀ b, _data this1 ≠ Some b → stores h2 !! b = stores h1 !! b) →
  this2 = this ∧ h2 = h.
Proof.
  intros Hrep Ha Hsame1 Hnew Hn1 Hs1 Hrep2 Hsame2 Hfree Ha2 Hn2 Hs2.
  assert (this2 = this) as ->.
  { destruct l as [|y l].
    - rewrite (repr_nil_handle _ _ Hrep2). symmetry. by eapply repr_nil_handle.
    - rewrite Hsame2, Hsame1; done. }
  split; [done|]. destruct h as [E S], h2 as [E2 S2]. cbn [nodes stores] in *.
  f_equal; apply map_eq; intros k.
  - destruct (decide (k = a)) as [->|Hka]; [by rewrite Ha, Ha2|].
    destruct (decide (k ∈ l.*1)) as [Hin|Hout].
    + unfold repr, storage_repr in Hrep, Hrep2.
      destruct (_data this) as [d|]; [|subst l; by apply elem_of_nil in Hin].
      destruct Hrep as (_ & _ & _ & Hdll), Hrep2 as (_ & _ & _ & Hdll2).
      cbn [nodes] in *. by eapply dll_agree.
    + rewrite Hn2, Hn1; done.
  - destruct (decide (_data this1 = Some k)) as [Hk|Hk].
    + destruct l as [|y l].
      * destruct (Hnew eq_refl) as (d & Hd & Hfresh).
        rewrite Hk in Hd. injection Hd as <-.
        rewrite Hfresh. by apply Hfree.
      * rewrite Hsame1 in Hk by done.
        unfold repr, storage_repr in Hrep, Hrep2. rewrite Hk in Hrep, Hrep2.
        destruct Hrep as (_ & HS & _), Hrep2 as (_ & HS2 & _).
        cbn [stores] in *. by rewrite HS, HS2.
    + rewrite Hs2, Hs1; done.
Qed.
(** ** Frames of a sequence of pushes *)

Lemma push_back_all_frame h this l vs :
  repr h this l →
  ∃ this' l' h',
    push_back_all alloc_node alloc_store this vs h
      = Ret (this', Some <$> l'.*1) h'
    ∧ repr h' this' (l ++ l')
    ∧ l'.*2 = vs
    ∧ (∀ a, a ∈ l'.*1 → nodes h !! a = None)
    ∧ (∀ a, a ∉ (l ++ l').*1 → nodes h' !! a = nodes h !! a)
    ∧ (∀ b, _data this' ≠ Some b → stores h' !! b = stores h !! b)
    ∧ (l ++ l' ≠ [] → l = [] → ∃ d, _data this' = Some d ∧ stores h !! d = None)
    ∧ (l ≠ [] → this' = this).
Proof using alloc_node_fresh alloc_store_fresh.
  revert h this l. induction vs as [|v vs IH]; intros h this l Hrep.
  - exists this, [], h. rewrite app_nil_r. split_and!; try done.
    intros a Ha. by apply elem_of_nil in Ha.
  - destruct (push_back_spec _ _ _ v Hrep)
      as (this1 & a & h1 & Hrun & Ha & Hrep1 & Hsame1 & Hn1 & Hs1).
    destruct (IH _ _ _ Hrep1)
      as (this2 & l' & h2 & Hrun' & Hrep2 & Hvals & Hfresh & Hn2 & Hs2 & _ & Hsame2).
    assert (this2 = this1) as -> by (apply Hsame2; by destruct l).
    pose proof (repr_nodup _ _ _ Hrep2) as Hnd.
    exists this1, ((a, v) :: l'), h2. cbn [push_back_all].
    rewrite (bind_eq _ _ _ _ _ Hrun). cbn [fst snd].
    rewrite (bind_eq _ _ _ _ _ Hrun'). cbn [fst snd].
    rewrite <- app_assoc in Hrep2, Hn2, Hnd. cbn [app] in Hrep2, Hn2, Hnd.
    split_and!; [done|done| | | | | |done].
    + rewrite fmap_cons. cbn [snd]. by rewrite Hvals.
    + rewrite fmap_cons. intros b [->|Hb]%elem_of_cons; [done|].
      rewrite <- Hn1; [by apply Hfresh|].
      rewrite fmap_app in Hnd. apply NoDup_app in Hnd as (_ & Hdisj & Hnd).
      rewrite fmap_cons in Hnd. apply NoDup_cons in Hnd as [Hal' _].
      rewrite fmap_app, fmap_cons. cbn [fst fmap list_fmap].
      intros [Hin|Hin]%elem_of_app.
      * apply (Hdisj _ Hin). rewrite fmap_cons. by apply list_elem_of_further.
      * apply list_elem_of_singleton in Hin as ->. done.
    + intros b Hb. rewrite Hn2 by done. apply Hn1.
      intros Hin. apply Hb. rewrite fmap_app, fmap_cons.
      rewrite fmap_app, fmap_cons in Hin. cbn [fst fmap list_fmap] in Hin.
      apply elem_of_app in Hin as [Hin|Hin].
      * apply elem_of_app. by left.
      * apply list_elem_of_singleton in Hin as ->.
        apply elem_of_app. right. apply list_elem_of_here.
    + intros b Hb. rewrite Hs2 by done. by apply Hs1.
    + intros _ ->. rewrite (repr_nil_handle _ _ Hrep) in Hrun.
      by eapply push_back_new_store.
Qed.
(** ** Splitting a list at its members *)

Lemma member_split l a :
  a ∈ l.*1 → ∃ l1 x l2, l = l1 ++ x :: l2 ∧ x.1 = a.
Proof.
  intros (x & -> & Hx)%list_elem_of_fmap.
  apply list_elem_of_split in Hx as (l1 & l2 & ->). by exists l1, x, l2.
Qed.

Lemma two_members_split l a b :
  a ∈ l.*1 → b ∈ l.*1 → a ≠ b →
  (∃ l1 y l2 x l3, l = l1 ++ y :: l2 ++ x :: l3 ∧ x.1 = a ∧ y.1 = b)
  ∨ (∃ l1 x l2 y l3, l = l1 ++ x :: l2 ++ y :: l3 ∧ x.1 = a ∧ y.1 = b).
Proof.
  intros Ha Hb Hne.
  destruct (member_split _ _ Ha) as (l1 & x & l2 & -> & <-).
  rewrite fmap_app, fmap_cons in Hb.
  apply elem_of_app in Hb as [Hb|Hb].
  - destruct (member_split _ _ Hb) as (k1 & y & k2 & -> & <-).
    left. exists k1, y, k2, x, l2. by rewrite <- app_assoc.
  - apply elem_of_cons in Hb as [Hb|Hb]; [congruence|].
    destruct (member_split _ _ Hb) as (k1 & y & k2 & -> & <-).
    right. by exists l1, x, k1, y, k2.
Qed.

(** ** move_before of a node before itself *)

Lemma move_before_self_spec h this l1 x l2 :
  repr h this (l1 ++ x :: l2) →
  ∃ h', move_before this (Some x.1) (Some x.1) h = Ret () h'
    ∧ front this h' = Ret (hd_ptr l1 (Some x.1)) h'
    ∧ dll (nodes h') (_data this) None l1 (Some x.1)
    ∧ nodes h' !! x.1
      = Some (mkElement x.2 (Some x.1) (Some x.1) (_data this)).
Proof.
  destruct h as [E S]. unfold repr, storage_repr.
  destruct this as [[d|]]; cbn [_data nodes stores]; [|by destruct l1].
  intros (_ & HS & Hnd & Hdll).
  apply dll_middle in Hdll as (H1 & Hx & H2).
  unfold move_before, front. cbn [_data nonnull].
  destruct (snoc_case l1) as [-> | (l1' & a & ->)]; destruct l2 as [|c l2'];
    try apply dll_snoc in H1 as [H1 Ha]; try destruct H2 as [Hc H2];
    norm_ptrs; distinct Hnd;
    (eexists; split; [exec|]); cbn [nodes stores];
    (split_and!; [read_store|solve_dll|cell]).
Qed.

Lemma walk_next_stuck (h : @Heap Variant) o p l q :
  dll (nodes h) o p l q →
  (∀ k, walk next k q h = Timeout) →
  ∀ k, walk next k (hd_ptr l q) h = Timeout.
Proof.
  revert p. induction l as [|y l IH]; intros p; cbn [dll hd_ptr]; [done|].
  intros [Hy Hl] Hq [|k]; [done|]. cbn [walk].
  unfold get_value.
  erewrite bind_eq by (eapply get_eq; eassumption).
  erewrite bind_eq by (unfold next; eapply get_eq; eassumption).
  cbn [next_ptr]. unfold bind. by rewrite (IH _ Hl Hq).
Qed.

Lemma walk_next_self_loop (h : @Heap Variant) a e :
  nodes h !! a = Some e → next_ptr e = Some a →
  ∀ k, walk next k (Some a) h = Timeout.
Proof.
  intros He Hn. induction k as [|k IH]; [done|]. cbn [walk].
  unfold get_value.
  erewrite bind_eq by (eapply get_eq; eassumption).
  erewrite bind_eq by (unfold next; eapply get_eq; eassumption).
  rewrite Hn. unfold bind. by rewrite IH.
Qed.
(** * Further properties of the code *)

(** X1. [ListData::erase] of a node of the chain returns true; the node
    is released, the chain is the old one without it, the count is one
    less, and no other node and no other storage block is touched. *)
Theorem erase_unlinks_member h d l1 x l2 :
  storage_repr h d (l1 ++ x :: l2) →
  ∃ h', ListData_erase (Some d) (Some x.1) h = Ret true h'
    ∧ storage_repr h' d (l1 ++ l2)
    ∧ nodes h' !! x.1 = None
    ∧ (∀ a, a ∉ (l1 ++ x :: l2).*1 → nodes h' !! a = nodes h !! a)
    ∧ (∀ a, a ≠ d → stores h' !! a = stores h !! a).
Proof. apply ListData_erase_spec. Qed.

(** X2. [ListData::erase] refuses a null handle and a live node whose
    back-reference is another storage: it returns false and the heap is
    the one before the call, whatever the heap and the storage. *)
Theorem erase_rejects_null_and_foreign (h : @Heap Variant) this :
  ListData_erase this None h = Ret false h
  ∧ ∀ a e, nodes h !! a = Some e → data e ≠ this →
      ListData_erase this (Some a) h = Ret false h.
Proof.
  split; [done|]. intros a e He Hd. unfold ListData_erase. cbn [nonnull negb].
  rewrite (bind_eq _ _ _ _ _ (get_eq data _ _ _ He)).
  unfold ptr_eq. by rewrite bool_decide_eq_false_2.
Qed.

(** X3. On a well-formed list, [remove] of a null handle or of a live
    node of another storage returns false, and neither the handle nor the
    heap changes. *)
Theorem remove_rejects_null_and_foreign h this l :
  repr h this l →
  remove this None h = Ret (this, false) h
  ∧ ∀ a e, nodes h !! a = Some e → data e ≠ _data this →
      remove this (Some a) h = Ret (this, false) h.
Proof.
  intros Hrep. split; [by eapply remove_null|].
  intros a e He Hd. by eapply remove_foreign.
Qed.

(** X4. [move_to_back] and [move_to_front] of a live node whose
    back-reference is not the storage of the list return at their guard:
    the heap is the one before the call. *)
Theorem move_to_ends_reject_foreign (h : @Heap Variant) this a e :
  nodes h !! a = Some e → data e ≠ _data this →
  move_to_back this (Some a) h = Ret () h
  ∧ move_to_front this (Some a) h = Ret () h.
Proof.
  intros He Hd. split.
  - by eapply move_to_back_foreign.
  - by eapply move_to_front_foreign.
Qed.

(** X5. On a well-formed list, [move_before(x, y)] with two distinct
    nodes of the list returns and leaves a well-formed list in which [x]
    sits immediately before [y] and all other nodes keep their relative
    order, whether [x] was after [y] or before it. *)
Theorem move_before_relinks_before h this :
  (∀ l1 y l2 x l3,
     repr h this (l1 ++ y :: l2 ++ x :: l3) →
     ∃ h', move_before this (Some x.1) (Some y.1) h = Ret () h'
       ∧ repr h' this (l1 ++ x :: y :: l2 ++ l3))
  ∧ (∀ l1 x l2 y l3,
     repr h this (l1 ++ x :: l2 ++ y :: l3) →
     ∃ h', move_before this (Some x.1) (Some y.1) h = Ret () h'
       ∧ repr h' this (l1 ++ l2 ++ x :: y :: l3)).
Proof.
  split.
  - intros l1 y l2 x l3 Hrep.
    destruct (move_before_spec_after _ _ _ _ _ _ _ Hrep) as (h' & ? & ? & _).
    by exists h'.
  - intros l1 x l2 y l3 Hrep.
    destruct (move_before_spec_before _ _ _ _ _ _ _ Hrep) as (h' & ? & ? & _).
    by exists h'.
Qed.

(** X6. On a well-formed list [l1 ++ x :: l2], [move_before(x, nullptr)]
    returns; afterwards [back()] is [x] and the traversal from the back
    visits [x] and then the other nodes in reverse order, but the
    traversal from the front visits only the other nodes, [l1 ++ l2]:
    [x] is reachable from the tail and not from the head, while [size()]
    still counts it. *)
Theorem move_before_null_splits_traversals h this l1 x l2 fuel :
  repr h this (l1 ++ x :: l2) → length (l1 ++ x :: l2) ≤ fuel →
  ∃ h', move_before this (Some x.1) None h = Ret () h'
    ∧ back this h' = Ret (Some x.1) h'
    ∧ traverse_backward fuel this h' = Ret (x :: reverse (l1 ++ l2)) h'
    ∧ traverse_forward fuel this h' = Ret (l1 ++ l2) h'
    ∧ size this h' = Ret (Z.of_nat (length (l1 ++ x :: l2))) h'.
Proof.
  intros Hrep Hfuel.
  assert (length (l1 ++ l2) < fuel) as Hfuel'.
  { rewrite !length_app in *. cbn [length] in Hfuel. lia. }
  destruct (move_before_null_spec _ _ _ _ _ Hrep)
    as (h' & Hrun & Hf & Hb & Hdll & Hx).
  assert (∃ k, move_before this (Some x.1) None h = Ret () k
               ∧ size this k = Ret (Z.of_nat (length (l1 ++ x :: l2))) k)
    as (h'' & Hrun' & Hsize).
  { unfold repr in Hrep. destruct this as [[d|]]; cbn [_data] in Hrep;
      [|by destruct l1].
    apply move_before_runs; [apply Hrep| |done].
    rewrite fmap_app, fmap_cons. apply elem_of_app. right. apply list_elem_of_here. }
  rewrite Hrun in Hrun'. injection Hrun' as <-.
  exists h'. split_and!; [done|done| | |done].
  - unfold traverse_backward. rewrite (bind_eq _ _ _ _ _ Hb).
    destruct fuel as [|fuel]; [lia|]. cbn [walk]. unfold get_value.
    erewrite bind_eq by (eapply get_eq; eassumption).
    erewrite bind_eq by (unfold prev; eapply get_eq; eassumption).
    cbn [prev_ptr value].
    erewrite bind_eq by (eapply walk_prev_spec; [eassumption|lia]).
    by destruct x.
  - unfold traverse_forward. rewrite (bind_eq _ _ _ _ _ Hf).
    eapply walk_next_spec; [eassumption|lia].
Qed.
(** X7. On a well-formed list, [push_back(v)] followed by [pop_back()],
    and [push_front(v)] followed by [pop_front()], give back the handle
    and the heap of before: the node, and the storage block when the list
    was empty, are released and nothing else has changed.  The same holds
    when the pushed node is taken away with [remove]. *)
Theorem push_then_pop_restores h this l v :
  repr h this l →
  (∃ this1 a h1,
     push_back alloc_node alloc_store this v h = Ret (this1, Some a) h1
     ∧ pop_back this1 h1 = Ret this h
     ∧ remove this1 (Some a) h1 = Ret (this, true) h)
  ∧ (∃ this1 a h1,
     push_front alloc_node alloc_store this v h = Ret (this1, Some a) h1
     ∧ pop_front this1 h1 = Ret this h
     ∧ remove this1 (Some a) h1 = Ret (this, true) h).
Proof using alloc_node_fresh alloc_store_fresh.
  intros Hrep. split.
  - destruct (push_back_spec _ _ _ v Hrep)
      as (this1 & a & h1 & Hpush & Ha & Hrep1 & Hsame1 & Hn1 & Hs1).
    assert (l = [] → ∃ d, _data this1 = Some d ∧ stores h !! d = None) as Hnew.
    { intros ->. rewrite (repr_nil_handle _ _ Hrep) in Hpush.
      by eapply push_back_new_store. }
    assert (∀ b, b ≠ a → b ∉ l.*1 → nodes h1 !! b = nodes h !! b) as Hn1'.
    { intros b Hb Hl. apply Hn1. rewrite fmap_app. cbn. set_solver. }
    destruct (pop_back_spec _ _ _ _ Hrep1)
      as (this2 & h2 & Hpop & Hrep2 & Hsame2 & Hfree & Ha2 & Hn2 & Hs2).
    assert (∀ b, b ≠ a → b ∉ l.*1 → nodes h2 !! b = nodes h1 !! b) as Hn2'.
    { intros b Hb Hl. apply Hn2. rewrite fmap_app. cbn. set_solver. }
    destruct (push_undone h this l a h1 this1 h2 this2) as [-> ->]; try done.
    exists this1, a, h1. split_and!; [done|done|].
    destruct (remove_spec h1 this1 l (a, v) [] Hrep1)
      as (this3 & h3 & Hrem & Hrep3 & Hsame3 & Hfree3 & Ha3 & Hn3 & Hs3).
    rewrite app_nil_r in *.
    assert (∀ b, b ≠ a → b ∉ l.*1 → nodes h3 !! b = nodes h1 !! b) as Hn3'.
    { intros b Hb Hl. apply Hn3. rewrite fmap_app. cbn. set_solver. }
    destruct (push_undone h this l a h1 this1 h3 this3) as [-> ->]; done.
  - destruct (push_front_spec _ _ _ v Hrep)
      as (this1 & a & h1 & Hpush & Ha & Hrep1 & Hsame1 & Hn1 & Hs1).
    assert (l = [] → ∃ d, _data this1 = Some d ∧ stores h !! d = None) as Hnew.
    { intros ->. rewrite (repr_nil_handle _ _ Hrep) in Hpush.
      by eapply push_front_new_store. }
    assert (∀ b, b ≠ a → b ∉ l.*1 → nodes h1 !! b = nodes h !! b) as Hn1'.
    { intros b Hb Hl. apply Hn1. rewrite fmap_cons. cbn. set_solver. }
    destruct (pop_front_spec _ _ _ _ Hrep1)
      as (this2 & h2 & Hpop & Hrep2 & Hsame2 & Hfree & Ha2 & Hn2 & Hs2).
    assert (∀ b, b ≠ a → b ∉ l.*1 → nodes h2 !! b = nodes h1 !! b) as Hn2'.
    { intros b Hb Hl. apply Hn2. rewrite fmap_cons. cbn. set_solver. }
    destruct (push_undone h this l a h1 this1 h2 this2) as [-> ->]; try done.
    exists this1, a, h1. split_and!; [done|done|].
    destruct (remove_spec h1 this1 [] (a, v) l Hrep1)
      as (this3 & h3 & Hrem & Hrep3 & Hsame3 & Hfree3 & Ha3 & Hn3 & Hs3).
    cbn [app] in *.
    assert (∀ b, b ≠ a → b ∉ l.*1 → nodes h3 !! b = nodes h1 !! b) as Hn3'.
    { intros b Hb Hl. apply Hn3. rewrite fmap_cons. cbn. set_solver. }
    destruct (push_undone h this l a h1 this1 h3 this3) as [-> ->]; done.
Qed.

(** X8. After [push_back(v)] on a well-formed list, [back()] is the new
    node, [front()] is the old head (the new node when the list was
    empty), [size()] is one more and [empty()] is false; after
    [push_front(v)], [front()] is the new node and [back()] the old
    tail (the new node when the list was empty). *)
Theorem push_updates_ends_and_size h this l v :
  repr h this l →
  (∃ this' a h',
     push_back alloc_node alloc_store this v h = Ret (this', Some a) h'
     ∧ back this' h' = Ret (Some a) h'
     ∧ front this' h' = Ret (hd_ptr l (Some a)) h'
     ∧ size this' h' = Ret (Z.of_nat (length l) + 1)%Z h'
     ∧ empty this' h' = Ret false h')
  ∧ (∃ this' a h',
     push_front alloc_node alloc_store this v h = Ret (this', Some a) h'
     ∧ front this' h' = Ret (Some a) h'
     ∧ back this' h' = Ret (last_ptr l (Some a)) h'
     ∧ size this' h' = Ret (Z.of_nat (length l) + 1)%Z h'
     ∧ empty this' h' = Ret false h').
Proof using alloc_node_fresh alloc_store_fresh.
  intros Hrep. split.
  - destruct (push_back_spec _ _ _ v Hrep) as (this' & a & h' & Hpush & _ & Hrep' & _).
    exists this', a, h'. split_and!; [done| | | |].
    + rewrite (back_spec _ _ _ Hrep'). by rewrite last_ptr_app.
    + rewrite (front_spec _ _ _ Hrep'). by rewrite hd_ptr_app.
    + rewrite (size_spec _ _ _ Hrep'). f_equal. rewrite length_app. cbn [length]. lia.
    + rewrite (empty_spec _ _ _ Hrep'). f_equal. apply bool_decide_eq_false_2.
      by destruct l.
  - destruct (push_front_spec _ _ _ v Hrep) as (this' & a & h' & Hpush & _ & Hrep' & _).
    exists this', a, h'. split_and!; [done| | | |].
    + by rewrite (front_spec _ _ _ Hrep').
    + by rewrite (back_spec _ _ _ Hrep').
    + rewrite (size_spec _ _ _ Hrep'). f_equal. cbn [length]. lia.
    + by rewrite (empty_spec _ _ _ Hrep').
Qed.
(** X9. On a well-formed list, [move_before(x, x)] returns and leaves
    [x] as its own successor, linked after its old predecessor (or as
    head): from then on the traversal from the front never ends,
    whatever the fuel. *)
Theorem move_before_self_never_ends h this l1 x l2 :
  repr h this (l1 ++ x :: l2) →
  ∃ h', move_before this (Some x.1) (Some x.1) h = Ret () h'
    ∧ get next_ptr (Some x.1) h' = Ret (Some x.1) h'
    ∧ ∀ fuel, traverse_forward fuel this h' = Timeout.
Proof.
  intros Hrep.
  destruct (move_before_self_spec _ _ _ _ _ Hrep) as (h' & Hrun & Hf & Hdll & Hx).
  exists h'. split_and!; [done| |].
  - by rewrite (get_eq _ _ _ _ Hx).
  - intros fuel. unfold traverse_forward. rewrite (bind_eq _ _ _ _ _ Hf).
    eapply walk_next_stuck; [eassumption|].
    by eapply walk_next_self_loop.
Qed.

(** X10. The destructor of a well-formed list returns (with fuel for the
    loop of [clear]): every node of the list and its storage block are
    released, no other node and no other storage block is touched. *)
Theorem destructor_releases_all h this l fuel :
  repr h this l → length l ≤ fuel →
  ∃ h', destructor fuel this h = Ret (mkList None) h'
    ∧ (∀ a, a ∈ l.*1 → nodes h' !! a = None)
    ∧ (∀ a, a ∉ l.*1 → nodes h' !! a = nodes h !! a)
    ∧ (∀ d, _data this = Some d → stores h' !! d = None)
    ∧ (∀ a, _data this ≠ Some a → stores h' !! a = stores h !! a).
Proof.
  intros Hrep Hfuel.
  destruct (clear_spec _ _ _ _ Hrep Hfuel) as (h' & Hrun & Hrest).
  exists h'. split; [|done]. unfold destructor.
  by rewrite (bind_eq _ _ _ _ _ Hrun).
Qed.

(** X11. The destructor of a handle whose storage block has a null head
    (what is left when the last node was erased through the storage and
    not through the list) skips the loop, whatever the fuel, and releases
    the block exactly when its count is zero; with a count that is not
    zero it returns at [ERR_FAIL_COND] and the block stays live. *)
Theorem destructor_of_hollow_storage (h : @Heap Variant) d s fuel :
  stores h !! d = Some s → first s = None →
  destructor fuel (mkList (Some d)) h
  = Ret (mkList (Some d))
      (if bool_decide (size_cache s = 0%Z)
       then mkHeap (nodes h) (delete d (stores h))
       else h).
Proof.
  intros Hs Hf. unfold destructor.
  assert (clear fuel (mkList (Some d)) h = Ret (mkList (Some d)) h) as Hclear.
  { destruct fuel; cbn [clear]; unfold front; cbn [_data nonnull];
      rewrite (bind_eq _ _ _ _ _ (dget_eq first _ _ _ Hs)); by rewrite Hf. }
  rewrite (bind_eq _ _ _ _ _ Hclear). cbn [_data nonnull].
  rewrite (bind_eq _ _ _ _ _ (dget_eq size_cache _ _ _ Hs)).
  case_bool_decide; cbn [negb]; [|done].
  by rewrite (bind_eq _ _ _ _ _ (memdelete_store_eq _ _ _ Hs)).
Qed.

(** X12. Filling a new list with [push_back] and emptying it again with
    [clear], or destroying it, leaves the heap exactly as it was before
    the first push: every node and the storage block that the list
    allocated are released, and nothing else has changed. *)
Theorem fill_then_clear_restores (h : @Heap Variant) vs fuel :
  length vs ≤ fuel →
  ∃ this' ps h',
    push_back_all alloc_node alloc_store (mkList None) vs h = Ret (this', ps) h'
    ∧ clear fuel this' h' = Ret (mkList None) h
    ∧ destructor fuel this' h' = Ret (mkList None) h.
Proof using alloc_node_fresh alloc_store_fresh.
  intros Hfuel.
  destruct (push_back_all_frame h (mkList None) [] vs eq_refl)
    as (this' & l & h' & Hrun & Hrep & Hvals & Hfresh & Hn & Hs & Hnew & _).
  cbn [app] in *.
  assert (length l ≤ fuel) as Hlen by by rewrite <- (length_fmap snd), Hvals.
  destruct (clear_spec _ _ _ _ Hrep Hlen) as (h'' & Hclear & Hdead & Hn' & Hfree & Hs').
  assert (h'' = h) as ->.
  { destruct h as [E S], h'' as [E' S']. cbn [nodes stores] in *.
    f_equal; apply map_eq; intros k.
    - destruct (decide (k ∈ l.*1)) as [Hin|Hout].
      + by rewrite Hdead, Hfresh.
      + by rewrite Hn', Hn.
    - destruct (decide (_data this' = Some k)) as [Hk|Hk].
      + rewrite (Hfree _ Hk). symmetry.
        destruct (Hnew) as (d & Hd & Hd'); [|done|congruence].
        intros ->. rewrite (proj2 (repr_data _ _ _ Hrep) eq_refl) in Hk. done.
      + by rewrite Hs', Hs. }
  exists this', (Some <$> l.*1), h'. split_and!; [done|done|].
  unfold destructor. by rewrite (bind_eq _ _ _ _ _ Hclear).
Qed.
(** X13. On a well-formed list every operation that succeeds leaves the
    storage invariants of the specification in force (head, tail and
    count empty together; every link answered by the opposite link; the
    count equal to the nodes met from either end): [push_back],
    [push_front], [pop_back], [pop_front], [remove] of a node of the
    list, [move_to_front], [move_to_back], [move_before] of two distinct
    nodes of the list, and [clear]. *)
Theorem operations_keep_invariants h this l :
  repr h this l →
  (∀ v, ∃ this' p h',
     push_back alloc_node alloc_store this v h = Ret (this', p) h'
     ∧ list_inv h' this')
  ∧ (∀ v, ∃ this' p h',
     push_front alloc_node alloc_store this v h = Ret (this', p) h'
     ∧ list_inv h' this')
  ∧ (∃ this' h', pop_back this h = Ret this' h' ∧ list_inv h' this')
  ∧ (∃ this' h', pop_front this h = Ret this' h' ∧ list_inv h' this')
  ∧ (∀ a, a ∈ l.*1 →
     ∃ this' h', remove this (Some a) h = Ret (this', true) h'
       ∧ list_inv h' this')
  ∧ (∀ a, a ∈ l.*1 →
     ∃ h', move_to_front this (Some a) h = Ret () h' ∧ list_inv h' this)
  ∧ (∀ a, a ∈ l.*1 →
     ∃ h', move_to_back this (Some a) h = Ret () h' ∧ list_inv h' this)
  ∧ (∀ a b, a ∈ l.*1 → b ∈ l.*1 → a ≠ b →
     ∃ h', move_before this (Some a) (Some b) h = Ret () h' ∧ list_inv h' this)
  ∧ (∀ fuel, length l ≤ fuel →
     ∃ this' h', clear fuel this h = Ret this' h' ∧ list_inv h' this').
Proof using alloc_node_fresh alloc_store_fresh.
  intros Hrep. split_and!.
  - intros v. destruct (push_back_spec _ _ _ v Hrep) as (this' & a & h' & ? & _ & ? & _).
    exists this', (Some a), h'. split; [done|]. by eapply repr_list_inv.
  - intros v. destruct (push_front_spec _ _ _ v Hrep) as (this' & a & h' & ? & _ & ? & _).
    exists this', (Some a), h'. split; [done|]. by eapply repr_list_inv.
  - destruct (snoc_case l) as [->|(l' & x & ->)].
    + exists this, h. split; [|by eapply repr_list_inv].
      apply pop_empty. by rewrite (repr_nil_handle _ _ Hrep).
    + destruct (pop_back_spec _ _ _ _ Hrep) as (this' & h' & ? & ? & _).
      exists this', h'. split; [done|]. by eapply repr_list_inv.
  - destruct l as [|x l'].
    + exists this, h. split; [|by eapply repr_list_inv].
      apply pop_empty. by rewrite (repr_nil_handle _ _ Hrep).
    + destruct (pop_front_spec _ _ _ _ Hrep) as (this' & h' & ? & ? & _).
      exists this', h'. split; [done|]. by eapply repr_list_inv.
  - intros a (l1 & x & l2 & -> & <-)%member_split.
    destruct (remove_spec _ _ _ _ _ Hrep) as (this' & h' & ? & ? & _).
    exists this', h'. split; [done|]. by eapply repr_list_inv.
  - intros a (l1 & x & l2 & -> & <-)%member_split.
    destruct (move_to_front_spec _ _ _ _ _ Hrep) as (h' & ? & ? & _).
    exists h'. split; [done|]. by eapply repr_list_inv.
  - intros a (l1 & x & l2 & -> & <-)%member_split.
    destruct (move_to_back_spec _ _ _ _ _ Hrep) as (h' & ? & ? & _).
    exists h'. split; [done|]. by eapply repr_list_inv.
  - intros a b Ha Hb Hne.
    destruct (two_members_split _ _ _ Ha Hb Hne)
      as [(l1 & y & l2 & x & l3 & -> & <- & <-)|(l1 & x & l2 & y & l3 & -> & <- & <-)].
    + destruct (move_before_spec_after _ _ _ _ _ _ _ Hrep) as (h' & ? & ? & _).
      exists h'. split; [done|]. by eapply repr_list_inv.
    + destruct (move_before_spec_before _ _ _ _ _ _ _ Hrep) as (h' & ? & ? & _).
      exists h'. split; [done|]. by eapply repr_list_inv.
  - intros fuel Hfuel. destruct (clear_spec _ _ _ _ Hrep Hfuel) as (h' & ? & _).
    by exists (mkList None), h'.
Qed.

Lemma other_kept h h1 other l' (L : list positive) (D : ptr) :
  repr h other l' →
  (∀ b, b ∉ L → nodes h1 !! b = nodes h !! b) →
  (∀ b, b ∈ l'.*1 → b ∉ L) →
  (∀ b, D ≠ Some b → stores h1 !! b = stores h !! b) →
  D ≠ _data other →
  repr h1 other l'.
Proof.
  intros Hrep Hn Hdisj Hs Hd. eapply repr_frame; [done| |].
  - intros a Ha. apply Hn. by apply Hdisj.
  - intros d Hod. apply Hs. congruence.
Qed.

(** X14. Two well-formed lists with different storage blocks in one heap
    do not interfere: after [push_back], [push_front], [pop_back],
    [pop_front], [remove] of a node of the first list,
    [move_to_front], [move_to_back], [move_before] of two distinct nodes
    of the first list, or [clear] on the first list, the second list is
    exactly as before (same nodes, payloads and order). *)
Theorem other_list_untouched h this l other l' :
  repr h this l → repr h other l' → _data this ≠ _data other →
  (∀ v, ∃ this1 p h1,
     push_back alloc_node alloc_store this v h = Ret (this1, p) h1
     ∧ repr h1 other l')
  ∧ (∀ v, ∃ this1 p h1,
     push_front alloc_node alloc_store this v h = Ret (this1, p) h1
     ∧ repr h1 other l')
  ∧ (∃ this1 h1, pop_back this h = Ret this1 h1 ∧ repr h1 other l')
  ∧ (∃ this1 h1, pop_front this h = Ret this1 h1 ∧ repr h1 other l')
  ∧ (∀ a, a ∈ l.*1 →
     ∃ this1 h1, remove this (Some a) h = Ret (this1, true) h1
       ∧ repr h1 other l')
  ∧ (∀ a, a ∈ l.*1 →
     ∃ h1, move_to_front this (Some a) h = Ret () h1 ∧ repr h1 other l')
  ∧ (∀ a, a ∈ l.*1 →
     ∃ h1, move_to_back this (Some a) h = Ret () h1 ∧ repr h1 other l')
  ∧ (∀ a b, a ∈ l.*1 → b ∈ l.*1 → a ≠ b →
     ∃ h1, move_before this (Some a) (Some b) h = Ret () h1 ∧ repr h1 other l')
  ∧ (∀ fuel, length l ≤ fuel →
     ∃ this1 h1, clear fuel this h = Ret this1 h1 ∧ repr h1 other l').
Proof using alloc_node_fresh alloc_store_fresh.
  intros Hrep Hrep' Hne.
  assert (∀ b, b ∈ l'.*1 → b ∉ l.*1) as Hdisj.
  { intros b Hb Hin. by eapply (repr_disjoint h this l other l' b). }
  assert (∀ a this1 h1,
            nodes h !! a = None →
            (l ≠ [] → this1 = this) →
            (l = [] → ∃ d, _data this1 = Some d ∧ stores h !! d = None) →
            (∀ b, b ∉ a :: l.*1 → nodes h1 !! b = nodes h !! b) →
            (∀ b, _data this1 ≠ Some b → stores h1 !! b = stores h !! b) →
            repr h1 other l') as Hpush.
  { intros a this1 h1 Ha Hsame Hnew Hn Hs.
    eapply (other_kept h h1 other l' (a :: l.*1) (_data this1)); [done|done| |done|].
    - intros b Hb [->|Hin]%elem_of_cons; [|by eapply Hdisj].
      destruct (repr_live _ _ _ _ Hrep' Hb) as (e & He & _). congruence.
    - destruct l as [|y l].
      + destruct (Hnew eq_refl) as (d & Hd & Hfresh). rewrite Hd. intros Heq.
        destruct (repr_store_live _ _ _ d Hrep' (eq_sym Heq)) as [s Hs'].
        congruence.
      + by rewrite Hsame. }
  split_and!.
  - intros v.
    destruct (push_back_spec _ _ _ v Hrep)
      as (this1 & a & h1 & Hrun & Ha & Hrep1 & Hsame & Hn & Hs).
    exists this1, (Some a), h1. split; [done|].
    eapply (Hpush a this1 h1); [done|done| | |done].
    + intros ->. rewrite (repr_nil_handle _ _ Hrep) in Hrun.
      by eapply push_back_new_store.
    + intros b Hb. apply Hn. rewrite fmap_app. cbn. set_solver.
  - intros v.
    destruct (push_front_spec _ _ _ v Hrep)
      as (this1 & a & h1 & Hrun & Ha & Hrep1 & Hsame & Hn & Hs).
    exists this1, (Some a), h1. split; [done|].
    eapply (Hpush a this1 h1); [done|done| | |done].
    + intros ->. rewrite (repr_nil_handle _ _ Hrep) in Hrun.
      by eapply push_front_new_store.
    + intros b Hb. apply Hn. rewrite fmap_cons. cbn. set_solver.
  - destruct (snoc_case l) as [->|(k & x & ->)].
    + exists this, h. split; [|done].
      apply pop_empty. by rewrite (repr_nil_handle _ _ Hrep).
    + destruct (pop_back_spec _ _ _ _ Hrep) as (this1 & h1 & Hrun & _ & _ & _ & _ & Hn & Hs).
      exists this1, h1. split; [done|].
      by eapply (other_kept h h1 other l' _ (_data this)).
  - destruct l as [|x k].
    + exists this, h. split; [|done].
      apply pop_empty. by rewrite (repr_nil_handle _ _ Hrep).
    + destruct (pop_front_spec _ _ _ _ Hrep) as (this1 & h1 & Hrun & _ & _ & _ & _ & Hn & Hs).
      exists this1, h1. split; [done|].
      by eapply (other_kept h h1 other l' _ (_data this)).
  - intros a Ha. destruct (member_split _ _ Ha) as (l1 & x & l2 & -> & <-).
    destruct (remove_spec _ _ _ _ _ Hrep) as (this1 & h1 & Hrun & _ & _ & _ & _ & Hn & Hs).
    exists this1, h1. split; [done|].
    by eapply (other_kept h h1 other l' _ (_data this)).
  - intros a Ha. destruct (member_split _ _ Ha) as (l1 & x & l2 & -> & <-).
    destruct (move_to_front_spec _ _ _ _ _ Hrep) as (h1 & Hrun & _ & _ & Hn & Hs).
    exists h1. split; [done|].
    by eapply (other_kept h h1 other l' _ (_data this)).
  - intros a Ha. destruct (member_split _ _ Ha) as (l1 & x & l2 & -> & <-).
    destruct (move_to_back_spec _ _ _ _ _ Hrep) as (h1 & Hrun & _ & _ & Hn & Hs).
    exists h1. split; [done|].
    by eapply (other_kept h h1 other l' _ (_data this)).
  - intros a b Ha Hb Hab.
    destruct (two_members_split _ _ _ Ha Hb Hab)
      as [(l1 & y & l2 & x & l3 & -> & <- & <-)|(l1 & x & l2 & y & l3 & -> & <- & <-)].
    + destruct (move_before_spec_after _ _ _ _ _ _ _ Hrep) as (h1 & Hrun & _ & Hn & Hs).
      exists h1. split; [done|].
      by eapply (other_kept h h1 other l' _ (_data this)).
    + destruct (move_before_spec_before _ _ _ _ _ _ _ Hrep) as (h1 & Hrun & _ & Hn & Hs).
      exists h1. split; [done|].
      by eapply (other_kept h h1 other l' _ (_data this)).
  - intros fuel Hfuel.
    destruct (clear_spec _ _ _ _ Hrep Hfuel) as (h1 & Hrun & _ & Hn & _ & Hs).
    exists (mkList None), h1. split; [done|].
    by eapply (other_kept h h1 other l' _ (_data this)).
Qed.

(** Two heaps that represent the same list through the same handle and
    agree outside it are equal. *)
Lemma same_repr_same_heap h1 h2 this l :
  repr h1 this l → repr h2 this l →
  (∀ a, a ∉ l.*1 → nodes h1 !! a = nodes h2 !! a) →
  (∀ b, _data this ≠ Some b → stores h1 !! b = stores h2 !! b) →
  h1 = h2.
Proof.
  intros Hrep1 Hrep2 Hn Hs. destruct h1 as [E1 S1], h2 as [E2 S2].
  cbn [nodes stores] in *. f_equal; apply map_eq; intros k.
  - destruct (decide (k ∈ l.*1)) as [Hin|Hout]; [|by apply Hn].
    unfold repr, storage_repr in Hrep1, Hrep2.
    destruct (_data this) as [d|]; [|subst l; by apply elem_of_nil in Hin].
    destruct Hrep1 as (_ & _ & _ & Hdll1), Hrep2 as (_ & _ & _ & Hdll2).
    cbn [nodes] in *. by eapply dll_agree.
  - destruct (decide (_data this = Some k)) as [Hk|Hk]; [|by apply Hs].
    unfold repr, storage_repr in Hrep1, Hrep2. rewrite Hk in Hrep1, Hrep2.
    destruct Hrep1 as (_ & HS1 & _), Hrep2 as (_ & HS2 & _).
    cbn [stores] in *. by rewrite HS1, HS2.
Qed.

(** X17. On a well-formed list, for a node [x] that is not the head,
    [move_before(x, front())] and [move_to_front(x)] return with the same
    heap: the list with [x] moved in front of the old head. *)
Theorem move_before_head_is_move_to_front h this y l1 x l2 :
  repr h this (y :: l1 ++ x :: l2) →
  ∃ h', move_to_front this (Some x.1) h = Ret () h'
    ∧ move_before this (Some x.1) (Some y.1) h = Ret () h'
    ∧ repr h' this (x :: y :: l1 ++ l2).
Proof.
  intros Hrep.
  destruct (move_to_front_spec h this (y :: l1) x l2 Hrep)
    as (h1 & Hrun1 & Hrep1 & _ & Hn1 & Hs1).
  destruct (move_before_spec_after h this [] y l1 x l2 Hrep)
    as (h2 & Hrun2 & Hrep2 & Hn2 & Hs2).
  cbn [app] in *.
  assert (h2 = h1) as ->.
  { eapply same_repr_same_heap; [done|done| |].
    - intros a Ha. rewrite Hn2, Hn1; [done| |].
      + intros Hin. apply Ha. revert Hin.
        rewrite !fmap_cons, !fmap_app, !fmap_cons. set_solver.
      + intros Hin. apply Ha. revert Hin.
        rewrite !fmap_cons, !fmap_app, !fmap_cons. set_solver.
    - intros b Hb. by rewrite Hs2, Hs1. }
  by exists h1.
Qed.

End proofs.

(** * The concrete instance *)

Lemma fresh_addr_fresh {A} (m : gmap positive A) : m !! fresh_addr m = None.
Proof. apply not_elem_of_dom. apply is_fresh. Qed.

Lemma abc_built :
  zpush_back_all new_list [10; 20; 30]%Z empty_heap
  = Ret (abc_list, [Some 1; Some 2; Some 3]%positive) abc_heap.
Proof. vm_compute. reflexivity. Qed.

Lemma abc_repr : repr abc_heap abc_list abc.
Proof.
  split; [done|]. split_and!.
  - vm_compute. reflexivity.
  - apply (bool_decide_unpack _). vm_compute. exact I.
  - cbn [dll abc hd_ptr fst snd]. split_and!; vm_compute; reflexivity || exact I.
Qed.

Lemma two_built :
  zpush_back new_list 10%Z empty_heap = Ret (list_one, Some 1%positive) one_heap
  ∧ zpush_back new_list 20%Z one_heap = Ret (list_two, Some 2%positive) two_heap.
Proof. split; vm_compute; reflexivity. Qed.


(** C1. On the list [10; 20; 30] (nodes 1, 2, 3), [move_before] of node 3
    before node 2 leaves the order [10; 30; 20], as the claim says.
    [move_before] of node 1 with a null second argument returns, and
    afterwards the tail is node 1 but the traversal from the front visits
    only nodes 2 and 3: node 1 is not visited last, it is not visited at
    all. *)
Theorem move_before_null_loses_node :
  result (bind (move_before abc_list (Some 3%positive) (Some 2%positive))
            (λ _, traverse_forward 3 abc_list) abc_heap)
    = Some [(1%positive, 10%Z); (3%positive, 30%Z); (2%positive, 20%Z)]
  ∧ result (bind (move_before abc_list (Some 1%positive) None)
            (λ _, traverse_forward 3 abc_list) abc_heap)
    = Some [(2%positive, 20%Z); (3%positive, 30%Z)]
  ∧ result (bind (move_before abc_list (Some 1%positive) None)
            (λ _, back abc_list) abc_heap)
    = Some (Some 1%positive).
Proof. split_and!; vm_compute; reflexivity. Qed.

(** C2. The list [10; 20; 30] built by [push_back] obeys the storage
    invariants.  After [move_before] of its first node with a null second
    argument the count is still 3 but only two nodes are met from the
    head, and the new tail points back to a node whose [next_ptr] is
    null: the invariants no longer hold. *)
Theorem move_before_null_breaks_invariants :
  list_inv abc_heap abc_list
  ∧ ∃ h', move_before abc_list (Some 1%positive) None abc_heap = Ret () h'
      ∧ ¬ list_inv h' abc_list.
Proof.
  split; [eapply repr_list_inv, abc_repr|].
  eexists. split; [vm_compute; reflexivity|].
  intros (s & fwd & bwd & Hs & _ & ((fuel & Hfwd) & _ & Hcount & _) & _).
  vm_compute in Hs. injection Hs as <-.
  cbn [first size_cache] in *.
  match type of Hfwd with
  | walk _ _ ?p ?h = _ =>
      assert (walk next 2 p h = Ret [(2%positive, 20%Z); (3%positive, 30%Z)] h)
        as Hw by (vm_compute; reflexivity)
  end.
  destruct (walk_det _ _ _ _ _ _ _ _ _ Hfwd Hw) as [-> _].
  discriminate.
Qed.

(** C3. [move_to_back], [move_to_front] and [move_before] dereference
    their first argument before any check: with a null handle they fault,
    in every heap.  [move_before] checks no back-reference: called on the
    list [10] with the node of the list [20], it returns and leaves the
    list [10] with a null head, the foreign node as tail, and count 1. *)
Theorem move_null_faults_and_move_before_unchecked :
  (∀ (this : LinkedList) (p : ptr) (h : @Heap Z),
     move_to_back this None h = Fault
     ∧ move_to_front this None h = Fault
     ∧ move_before this None p h = Fault)
  ∧ result (front list_one two_heap) = Some (Some 1%positive)
  ∧ result (bind (move_before list_one (Some 2%positive) None)
              (λ _, front list_one) two_heap) = Some None
  ∧ result (bind (move_before list_one (Some 2%positive) None)
              (λ _, back list_one) two_heap) = Some (Some 2%positive)
  ∧ result (bind (move_before list_one (Some 2%positive) None)
              (λ _, size list_one) two_heap) = Some 1%Z.
Proof. split_and!; [done|vm_compute; reflexivity..]. Qed.


(** [move_before] of a node before itself makes the node its own
    neighbour: on [10; 20; 30], after [move_before] of node 2 before node
    2, no traversal from the front returns, whatever the fuel. *)
Lemma move_before_self_loops fuel :
  result (bind (move_before abc_list (Some 2%positive) (Some 2%positive))
            (λ _, traverse_forward (S fuel) abc_list) abc_heap) = None.
Proof.
  pose (h' := match move_before abc_list (Some 2%positive) (Some 2%positive)
                      abc_heap with
               | Ret _ k => k
               | _ => abc_heap
               end).
  assert (move_before abc_list (Some 2%positive) (Some 2%positive) abc_heap
          = Ret () h') as Hrun by (vm_compute; reflexivity).
  rewrite (bind_eq _ _ _ _ _ Hrun).
  assert (Hloop : ∀ n, walk next n (Some 2%positive) h' = Timeout).
  { induction n as [|n IH]; [done|]. cbn [walk].
    erewrite bind_eq by (eapply get_eq; vm_compute; reflexivity).
    erewrite bind_eq by (eapply get_eq; vm_compute; reflexivity).
    cbn [next_ptr]. unfold bind. by rewrite IH. }
  unfold traverse_forward, front. cbn [abc_list _data nonnull].
  erewrite bind_eq by (eapply dget_eq; vm_compute; reflexivity).
  cbn [first walk].
  erewrite bind_eq by (eapply get_eq; vm_compute; reflexivity).
  erewrite bind_eq by (eapply get_eq; vm_compute; reflexivity).
  cbn [next_ptr]. unfold bind. by rewrite Hloop.
Qed.


(** * Witnesses: the theorems at the list [10; 20; 30] *)

Lemma move_to_ends_reorders_only_witness :
  repr abc_heap abc_list ([(1%positive, 10%Z)] ++ (2%positive, 20%Z) :: [(3%positive, 30%Z)])
  ∧ (∃ h', move_to_front abc_list (Some 2%positive) abc_heap = Ret () h'
       ∧ repr h' abc_list [(2%positive, 20%Z); (1%positive, 10%Z); (3%positive, 30%Z)])
  ∧ (∃ h', move_to_back abc_list (Some 2%positive) abc_heap = Ret () h'
       ∧ repr h' abc_list [(1%positive, 10%Z); (3%positive, 30%Z); (2%positive, 20%Z)]).
Proof.
  split; [exact abc_repr|].
  destruct (move_to_ends_reorders_only abc_heap abc_list
              [(1%positive, 10%Z)] (2%positive, 20%Z) [(3%positive, 30%Z)] abc_repr)
    as [(h1 & Hf & Hrf & _) (h2 & Hb & Hrb & _)].
  split; [exists h1|exists h2]; split; assumption.
Defined.

Lemma find_first_and_erase_value_witness :
  repr abc_heap abc_list abc ∧ length abc ≤ 3
  ∧ zfind 3 abc_list 20%Z abc_heap = Ret (Some 2%positive) abc_heap
  ∧ zfind 3 abc_list 40%Z abc_heap = Ret None abc_heap
  ∧ zerase 3 abc_list 40%Z abc_heap = Ret (abc_list, false) abc_heap.
Proof.
  split; [exact abc_repr|]. split; [vm_compute; lia|].
  destruct (find_first_and_erase_value Z.eqb abc_heap abc_list abc 20%Z 3
              abc_repr ltac:(vm_compute; lia)) as [Hhit _].
  destruct (find_first_and_erase_value Z.eqb abc_heap abc_list abc 40%Z 3
              abc_repr ltac:(vm_compute; lia)) as [_ Hmiss].
  split.
  - refine (proj1 (Hhit [(1%positive, 10%Z)] (2%positive, 20%Z)
                     [(3%positive, 30%Z)] eq_refl _ eq_refl)).
    intros y Hy. apply list_elem_of_singleton in Hy. by subst y.
  - apply Hmiss. intros y Hy. unfold abc in Hy.
    repeat (apply elem_of_cons in Hy as [->|Hy]; [reflexivity|]).
    by apply elem_of_nil in Hy.
Defined.

Lemma push_back_all_traversals_witness :
  (∀ E : gmap positive (@ListElement Z), E !! fresh_addr E = None)
  ∧ (∀ S : gmap positive ListData, S !! fresh_addr S = None)
  ∧ ∃ this' l h',
      zpush_back_all new_list [10; 20; 30]%Z empty_heap
        = Ret (this', Some <$> l.*1) h'
      ∧ traverse_forward 3 this' h' = Ret l h'
      ∧ l.*2 = [10; 20; 30]%Z
      ∧ traverse_backward 3 this' h' = Ret (reverse l) h'
      ∧ (reverse l).*2 = [30; 20; 10]%Z.
Proof.
  split; [exact fresh_addr_fresh|]. split; [exact fresh_addr_fresh|].
  exact (push_back_all_traversals fresh_addr fresh_addr
           fresh_addr_fresh fresh_addr_fresh empty_heap [10; 20; 30]%Z).
Defined.

Lemma pop_and_clear_release_witness :
  (∀ E : gmap positive (@ListElement Z), E !! fresh_addr E = None)
  ∧ (∀ S : gmap positive ListData, S !! fresh_addr S = None)
  ∧ repr abc_heap abc_list abc
  ∧ ∃ h', clear 3 abc_list abc_heap = Ret new_list h'
      ∧ stores h' !! 1%positive = None.
Proof.
  split; [exact fresh_addr_fresh|]. split; [exact fresh_addr_fresh|].
  split; [exact abc_repr|].
  destruct (pop_and_clear_release fresh_addr fresh_addr
              fresh_addr_fresh fresh_addr_fresh abc_heap abc_list abc abc_repr)
    as (_ & _ & _ & _ & Hclear).
  destruct (Hclear 3 ltac:(vm_compute; lia)) as (h' & Hrun & _ & Hfree & _).
  exists h'. split; [exact Hrun|]. by apply Hfree.
Defined.

Lemma push_preserves_existing_witness :
  (∀ E : gmap positive (@ListElement Z), E !! fresh_addr E = None)
  ∧ (∀ S : gmap positive ListData, S !! fresh_addr S = None)
  ∧ repr abc_heap abc_list abc
  ∧ (∃ this' a h',
       zpush_back abc_list 40%Z abc_heap = Ret (this', Some a) h'
       ∧ nodes abc_heap !! a = None
       ∧ repr h' this' (abc ++ [(a, 40%Z)]))
  ∧ (∃ this' a h',
       zpush_front abc_list 40%Z abc_heap = Ret (this', Some a) h'
       ∧ nodes abc_heap !! a = None
       ∧ repr h' this' ((a, 40%Z) :: abc)).
Proof.
  split; [exact fresh_addr_fresh|]. split; [exact fresh_addr_fresh|].
  split; [exact abc_repr|].
  exact (push_preserves_existing fresh_addr fresh_addr
           fresh_addr_fresh fresh_addr_fresh abc_heap abc_list abc 40%Z abc_repr).
Defined.

Lemma move_before_keeps_size_witness :
  repr abc_heap abc_list abc
  ∧ 3%positive ∈ abc.*1
  ∧ ptr_in abc.*1 (Some 2%positive)
  ∧ ∃ h', move_before abc_list (Some 3%positive) (Some 2%positive) abc_heap = Ret () h'
      ∧ size abc_list abc_heap = Ret 3%Z abc_heap
      ∧ size abc_list h' = Ret 3%Z h'.
Proof.
  assert (3%positive ∈ abc.*1) as H3 by (vm_compute; set_solver).
  assert (ptr_in abc.*1 (Some 2%positive)) as H2 by (vm_compute; set_solver).
  split; [exact abc_repr|]. split; [exact H3|]. split; [exact H2|].
  exact (move_before_keeps_size abc_heap abc_list abc 3%positive
           (Some 2%positive) abc_repr H3 H2).
Defined.

Lemma remove_without_storage_witness :
  _data new_list = None
  ∧ remove new_list (Some 1%positive) abc_heap = Ret (new_list, false) abc_heap.
Proof.
  split; [reflexivity|].
  exact (remove_without_storage abc_heap new_list (Some 1%positive) eq_refl).
Defined.


(** * The scripting wrappers *)

Lemma copy_loop_spec {Src Dst} (convert : Src → Dst) fuel i v ret :
  length v - i ≤ fuel →
  copy_loop convert fuel i v ret = Some (ret ++ (convert <$> drop i v)).
Proof.
  revert i ret. induction fuel as [|fuel IH]; intros i ret Hfuel; cbn [copy_loop].
  - rewrite bool_decide_eq_false_2 by lia.
    rewrite drop_ge by lia. by rewrite app_nil_r.
  - case_bool_decide as Hi.
    + destruct (lookup_lt_is_Some_2 v i Hi) as [e He].
      rewrite He, IH by lia.
      rewrite (drop_S _ _ _ He), fmap_cons. by rewrite <- app_assoc.
    + rewrite drop_ge by lia. by rewrite app_nil_r.
Qed.

(** X15. Each wrapper that copies the result of the geometry library into
    a new container ([merge_polygons], [clip_polygons], ...,
    [pixel_line], [polygon_to_pixels]) returns (with fuel for its loop)
    without an out-of-range access, and what it returns has as many
    elements as the library result, each one the conversion of the
    library's element at the same index. *)
Theorem bind_copy_returns_all {Src Dst Args} (convert : Src → Dst)
    (library : Args → list Src) (args : Args) fuel :
  length (library args) ≤ fuel →
  ∃ out, bind_copy convert fuel library args = Some out
    ∧ length out = length (library args)
    ∧ ∀ i, out !! i = convert <$> library args !! i.
Proof.
  intros Hfuel. exists (convert <$> library args). unfold bind_copy.
  rewrite copy_loop_spec by lia. cbn [drop app]. split_and!; [done| |].
  - apply length_fmap.
  - intros i. apply list_lookup_fmap.
Qed.

(** X16. The singleton of [_GoostGeometry2D] is the first object ever
    constructed: whatever objects are constructed afterwards, the
    constructor leaves it in place. *)
Theorem singleton_is_first_constructed (first : positive) (later : list positive) :
  foldl (λ s this, GoostGeometry2D_ctor this s) None (first :: later)
  = Some first.
Proof.
  cbn [foldl]. unfold GoostGeometry2D_ctor at 2. cbn [nonnull].
  induction later as [|o later IH]; [done|]. cbn [foldl]. exact IH.
Qed.


(** * Witnesses of the further properties *)

Lemma abc_storage_repr : storage_repr abc_heap 1%positive abc.
Proof. exact (proj2 abc_repr). Qed.

Lemma one_repr : repr two_heap list_one [(1%positive, 10%Z)].
Proof.
  split; [done|]. split_and!.
  - vm_compute. reflexivity.
  - apply (bool_decide_unpack _). vm_compute. exact I.
  - cbn [dll hd_ptr fst snd]. split_and!; vm_compute; reflexivity || exact I.
Qed.

Lemma two_repr : repr two_heap list_two [(2%positive, 20%Z)].
Proof.
  split; [done|]. split_and!.
  - vm_compute. reflexivity.
  - apply (bool_decide_unpack _). vm_compute. exact I.
  - cbn [dll hd_ptr fst snd]. split_and!; vm_compute; reflexivity || exact I.
Qed.

Lemma foreign_node :
  nodes two_heap !! 2%positive
  = Some (mkElement 20%Z None None (Some 2%positive)).
Proof. vm_compute. reflexivity. Qed.

Lemma erase_unlinks_member_witness :
  storage_repr abc_heap 1%positive
    ([(1%positive, 10%Z)] ++ (2%positive, 20%Z) :: [(3%positive, 30%Z)])
  ∧ ∃ h', ListData_erase (Some 1%positive) (Some 2%positive) abc_heap = Ret true h'
      ∧ storage_repr h' 1%positive [(1%positive, 10%Z); (3%positive, 30%Z)].
Proof.
  split; [exact abc_storage_repr|].
  destruct (erase_unlinks_member abc_heap 1%positive [(1%positive, 10%Z)]
              (2%positive, 20%Z) [(3%positive, 30%Z)] abc_storage_repr)
    as (h' & Hrun & Hrep & _).
  exists h'. split; assumption.
Defined.

Lemma erase_rejects_null_and_foreign_witness :
  nodes two_heap !! 2%positive
    = Some (mkElement 20%Z None None (Some 2%positive))
  ∧ Some 2%positive ≠ Some 1%positive
  ∧ ListData_erase (Some 1%positive) None two_heap = Ret false two_heap
  ∧ ListData_erase (Some 1%positive) (Some 2%positive) two_heap = Ret false two_heap.
Proof.
  split; [exact foreign_node|]. split; [discriminate|].
  destruct (erase_rejects_null_and_foreign two_heap (Some 1%positive))
    as [Hnull Hforeign].
  split; [exact Hnull|].
  refine (Hforeign 2%positive _ foreign_node _). discriminate.
Defined.

Lemma remove_rejects_null_and_foreign_witness :
  repr two_heap list_one [(1%positive, 10%Z)]
  ∧ remove list_one None two_heap = Ret (list_one, false) two_heap
  ∧ remove list_one (Some 2%positive) two_heap = Ret (list_one, false) two_heap.
Proof.
  split; [exact one_repr|].
  destruct (remove_rejects_null_and_foreign two_heap list_one _ one_repr)
    as [Hnull Hforeign].
  split; [exact Hnull|].
  refine (Hforeign 2%positive _ foreign_node _). discriminate.
Defined.

Lemma move_to_ends_reject_foreign_witness :
  nodes two_heap !! 2%positive
    = Some (mkElement 20%Z None None (Some 2%positive))
  ∧ Some 2%positive ≠ _data list_one
  ∧ move_to_back list_one (Some 2%positive) two_heap = Ret () two_heap
  ∧ move_to_front list_one (Some 2%positive) two_heap = Ret () two_heap.
Proof.
  split; [exact foreign_node|]. split; [discriminate|].
  refine (move_to_ends_reject_foreign two_heap list_one 2%positive _
            foreign_node _).
  discriminate.
Defined.

Lemma move_before_relinks_before_witness :
  repr abc_heap abc_list
    ([(1%positive, 10%Z)] ++ (2%positive, 20%Z) :: [] ++ (3%positive, 30%Z) :: [])
  ∧ ∃ h', move_before abc_list (Some 3%positive) (Some 2%positive) abc_heap
            = Ret () h'
      ∧ repr h' abc_list [(1%positive, 10%Z); (3%positive, 30%Z); (2%positive, 20%Z)].
Proof.
  split; [exact abc_repr|].
  exact (proj1 (move_before_relinks_before abc_heap abc_list)
           [(1%positive, 10%Z)] (2%positive, 20%Z) [] (3%positive, 30%Z) []
           abc_repr).
Defined.

Lemma move_before_null_splits_traversals_witness :
  repr abc_heap abc_list ([] ++ (1%positive, 10%Z) :: [(2%positive, 20%Z); (3%positive, 30%Z)])
  ∧ length abc ≤ 3
  ∧ ∃ h', move_before abc_list (Some 1%positive) None abc_heap = Ret () h'
      ∧ traverse_forward 3 abc_list h'
        = Ret [(2%positive, 20%Z); (3%positive, 30%Z)] h'
      ∧ traverse_backward 3 abc_list h'
        = Ret [(1%positive, 10%Z); (3%positive, 30%Z); (2%positive, 20%Z)] h'.
Proof.
  split; [exact abc_repr|]. split; [vm_compute; lia|].
  destruct (move_before_null_splits_traversals abc_heap abc_list []
              (1%positive, 10%Z) [(2%positive, 20%Z); (3%positive, 30%Z)] 3
              abc_repr ltac:(vm_compute; lia))
    as (h' & Hrun & _ & Hbwd & Hfwd & _).
  exists h'. split_and!; assumption.
Defined.

Lemma push_then_pop_restores_witness :
  (∀ E : gmap positive (@ListElement Z), E !! fresh_addr E = None)
  ∧ (∀ S : gmap positive ListData, S !! fresh_addr S = None)
  ∧ repr abc_heap abc_list abc
  ∧ ∃ this1 a h1,
      zpush_back abc_list 40%Z abc_heap = Ret (this1, Some a) h1
      ∧ pop_back this1 h1 = Ret abc_list abc_heap.
Proof.
  split; [exact fresh_addr_fresh|]. split; [exact fresh_addr_fresh|].
  split; [exact abc_repr|].
  destruct (push_then_pop_restores fresh_addr fresh_addr fresh_addr_fresh
              fresh_addr_fresh abc_heap abc_list abc 40%Z abc_repr)
    as [(this1 & a & h1 & Hpush & Hpop & _) _].
  exists this1, a, h1. split; assumption.
Defined.

Lemma push_updates_ends_and_size_witness :
  (∀ E : gmap positive (@ListElement Z), E !! fresh_addr E = None)
  ∧ (∀ S : gmap positive ListData, S !! fresh_addr S = None)
  ∧ repr abc_heap abc_list abc
  ∧ ∃ this' a h',
      zpush_back abc_list 40%Z abc_heap = Ret (this', Some a) h'
      ∧ back this' h' = Ret (Some a) h'
      ∧ front this' h' = Ret (Some 1%positive) h'
      ∧ size this' h' = Ret 4%Z h'.
Proof.
  split; [exact fresh_addr_fresh|]. split; [exact fresh_addr_fresh|].
  split; [exact abc_repr|].
  destruct (push_updates_ends_and_size fresh_addr fresh_addr fresh_addr_fresh
              fresh_addr_fresh abc_heap abc_list abc 40%Z abc_repr)
    as [(this' & a & h' & Hpush & Hback & Hfront & Hsize & _) _].
  exists this', a, h'. split_and!; assumption.
Defined.

Lemma move_before_self_never_ends_witness :
  repr abc_heap abc_list ([(1%positive, 10%Z)] ++ (2%positive, 20%Z) :: [(3%positive, 30%Z)])
  ∧ ∃ h', move_before abc_list (Some 2%positive) (Some 2%positive) abc_heap
            = Ret () h'
      ∧ traverse_forward 100 abc_list h' = Timeout.
Proof.
  split; [exact abc_repr|].
  destruct (move_before_self_never_ends abc_heap abc_list [(1%positive, 10%Z)]
              (2%positive, 20%Z) [(3%positive, 30%Z)] abc_repr)
    as (h' & Hrun & _ & Hloop).
  exists h'. split; [exact Hrun|exact (Hloop 100)].
Defined.

Lemma destructor_releases_all_witness :
  repr abc_heap abc_list abc ∧ length abc ≤ 3
  ∧ ∃ h', destructor 3 abc_list abc_heap = Ret new_list h'
      ∧ nodes h' !! 2%positive = None
      ∧ stores h' !! 1%positive = None.
Proof.
  split; [exact abc_repr|]. split; [vm_compute; lia|].
  destruct (destructor_releases_all abc_heap abc_list abc 3 abc_repr
              ltac:(vm_compute; lia))
    as (h' & Hrun & Hdead & _ & Hfree & _).
  exists h'. split_and!; [exact Hrun| |by apply Hfree].
  apply Hdead. vm_compute. set_solver.
Defined.

Lemma destructor_of_hollow_storage_witness :
  stores (mkHeap (∅ : gmap positive (@ListElement Z))
            {[1%positive := mkData None None 0%Z]}) !! 1%positive
    = Some (mkData None None 0%Z)
  ∧ first (mkData None None 0%Z) = None
  ∧ destructor 0 (mkList (Some 1%positive))
      (mkHeap (∅ : gmap positive (@ListElement Z))
         {[1%positive := mkData None None 0%Z]})
    = Ret (mkList (Some 1%positive))
        (mkHeap ∅ (delete 1%positive {[1%positive := mkData None None 0%Z]})).
Proof.
  assert (stores (mkHeap (∅ : gmap positive (@ListElement Z))
                    {[1%positive := mkData None None 0%Z]}) !! 1%positive
          = Some (mkData None None 0%Z)) as Hs by apply lookup_singleton_eq.
  split; [exact Hs|]. split; [reflexivity|].
  exact (destructor_of_hollow_storage _ 1%positive (mkData None None 0%Z) 0
           Hs eq_refl).
Defined.

Lemma fill_then_clear_restores_witness :
  (∀ E : gmap positive (@ListElement Z), E !! fresh_addr E = None)
  ∧ (∀ S : gmap positive ListData, S !! fresh_addr S = None)
  ∧ length [10; 20; 30]%Z ≤ 3
  ∧ ∃ this' ps h',
      zpush_back_all new_list [10; 20; 30]%Z empty_heap = Ret (this', ps) h'
      ∧ clear 3 this' h' = Ret new_list empty_heap
      ∧ destructor 3 this' h' = Ret new_list empty_heap.
Proof.
  split; [exact fresh_addr_fresh|]. split; [exact fresh_addr_fresh|].
  split; [vm_compute; lia|].
  exact (fill_then_clear_restores fresh_addr fresh_addr fresh_addr_fresh
           fresh_addr_fresh empty_heap [10; 20; 30]%Z 3 ltac:(vm_compute; lia)).
Defined.

Lemma operations_keep_invariants_witness :
  (∀ E : gmap positive (@ListElement Z), E !! fresh_addr E = None)
  ∧ (∀ S : gmap positive ListData, S !! fresh_addr S = None)
  ∧ repr abc_heap abc_list abc
  ∧ ∃ h', move_before abc_list (Some 3%positive) (Some 1%positive) abc_heap
            = Ret () h'
      ∧ list_inv h' abc_list.
Proof.
  split; [exact fresh_addr_fresh|]. split; [exact fresh_addr_fresh|].
  split; [exact abc_repr|].
  destruct (operations_keep_invariants fresh_addr fresh_addr fresh_addr_fresh
              fresh_addr_fresh abc_heap abc_list abc abc_repr)
    as (_ & _ & _ & _ & _ & _ & _ & Hmove & _).
  apply Hmove; [vm_compute; set_solver|vm_compute; set_solver|discriminate].
Defined.

Lemma other_list_untouched_witness :
  (∀ E : gmap positive (@ListElement Z), E !! fresh_addr E = None)
  ∧ (∀ S : gmap positive ListData, S !! fresh_addr S = None)
  ∧ repr two_heap list_one [(1%positive, 10%Z)]
  ∧ repr two_heap list_two [(2%positive, 20%Z)]
  ∧ _data list_one ≠ _data list_two
  ∧ ∃ this1 h1, clear 1 list_one two_heap = Ret this1 h1
      ∧ repr h1 list_two [(2%positive, 20%Z)].
Proof.
  split; [exact fresh_addr_fresh|]. split; [exact fresh_addr_fresh|].
  split; [exact one_repr|]. split; [exact two_repr|]. split; [discriminate|].
  destruct (other_list_untouched fresh_addr fresh_addr fresh_addr_fresh
              fresh_addr_fresh two_heap list_one _ list_two _
              one_repr two_repr ltac:(discriminate))
    as (_ & _ & _ & _ & _ & _ & _ & _ & Hclear).
  apply Hclear. vm_compute. lia.
Defined.

Lemma move_before_head_is_move_to_front_witness :
  repr abc_heap abc_list
    ((1%positive, 10%Z) :: [(2%positive, 20%Z)] ++ (3%positive, 30%Z) :: [])
  ∧ ∃ h', move_to_front abc_list (Some 3%positive) abc_heap = Ret () h'
      ∧ move_before abc_list (Some 3%positive) (Some 1%positive) abc_heap
        = Ret () h'.
Proof.
  split; [exact abc_repr|].
  destruct (move_before_head_is_move_to_front abc_heap abc_list
              (1%positive, 10%Z) [(2%positive, 20%Z)] (3%positive, 30%Z) []
              abc_repr)
    as (h' & Hfront & Hbefore & _).
  exists h'. split; assumption.
Defined.

Lemma bind_copy_returns_all_witness :
  length ((λ _ : (), [1; 2; 3]) ()) ≤ 3
  ∧ ∃ out, bind_copy Z.of_nat 3 (λ _ : (), [1; 2; 3]) () = Some out
      ∧ length out = 3.
Proof.
  split; [vm_compute; lia|].
  destruct (bind_copy_returns_all Z.of_nat (λ _ : (), [1; 2; 3]) () 3
              ltac:(vm_compute; lia)) as (out & Hrun & Hlen & _).
  exists out. split; assumption.
Defined.
